(** * Optics: lenses, prisms and isos over immutable data

    A shallow embedding of [src/index.ts] (the current revision, lines 1-376)
    and the properties of its composition algebra.

    Run-time values are modelled as the program sees them: [typeof a ===
    'function'] and [x === undefined] are tests on an untyped value, so the
    embedding works over one universe of JavaScript values.  Function values
    are references into a table of closures ([call]), objects are finite maps
    from property names to values, and a call returns a value or throws.

    The functions a caller supplies (the getter and setter of a Prism, the
    two conversions of an Iso, the updater given to [set]) are arbitrary
    functions of this kind.  Left out: properties inherited from a prototype,
    arrays with holes or with properties besides their elements, and
    callers' functions that do not return. *)

From stdpp Require Import base option gmap strings list fin_maps pretty.

Set Default Proof Using "Type".

(** ** Values *)

(** A function value is an arrow function: a reference [fn_ref] into the
    closure table [call] below, which says what the function does when
    invoked, and the two own properties such a function has, [name] and
    [length], neither of them enumerable. *)
Record fnid : Type := Fn {
  fn_ref : nat;
  fn_name : string;
  fn_length : nat
}.

(** [(x) => ...], written where it is used: anonymous, one parameter. *)
Definition arrow (ref : nat) : fnid := Fn ref "" 1.
Coercion arrow : nat >-> fnid.

(** A character of a [string] stands for one UTF-16 code unit; an array is
    the list of its elements. *)
#[warnings="-register-all"]
Inductive value : Type :=
  | VUndefined
  | VNull
  | VBool (b : bool)
  | VNum (n : Z)
  | VStr (s : string)
  | VFun (f : fnid)
  | VObj (o : gmap string value)
  | VArr (elems : list value).

(** [typeof a === 'function'] *)
Definition is_function (a : value) : bool :=
  match a with VFun _ => true | _ => false end.

(** [x === undefined] *)
Definition is_undefined (x : value) : bool :=
  match x with VUndefined => true | _ => false end.

(** ** Results: a value or a thrown exception *)

(** [TypeError] is what the run time throws on [undefined.x] and on a call of
    a value that is not a function; [Thrown v] is a caller's [throw v]. *)
Inductive error : Type :=
  | TypeError
  | Thrown (v : value).

Inductive res (A : Type) : Type :=
  | Ok (a : A)
  | Throw (e : error).
Arguments Ok {A} a.
Arguments Throw {A} e.

#[global] Instance res_ret : MRet res := fun A a => Ok a.
#[global] Instance res_bind : MBind res := fun A B k m =>
  match m with
  | Ok a => k a
  | Throw e => Throw e
  end.

(** ** Property access and object spread

    Only own properties are modelled.  The properties of a plain object are
    its map.  An array and a string have their elements under the keys
    ["0"], ["1"], ..., which are enumerable, and a [length], which is not;
    a function has [length] and [name], not enumerable; a boolean and a
    number have none.  Reading a property of [undefined] or [null] throws;
    a missing property reads as [undefined]. *)

(** The property name of the index [i]. *)
Definition index_key (i : nat) : string := pretty i.

(** The elements of an array or string under their index keys. *)
Definition indexed {A : Type} (l : list A) : gmap string A :=
  list_to_map (imap (λ i x, (index_key i, x)) l).

(** The code units of a string, each a string of length one. *)
Definition code_units (s : string) : list value :=
  (λ c, VStr (String c EmptyString)) <$> String.list_ascii_of_string s.

(** The own enumerable properties copied by [{ ...s }]. *)
Definition spread (s : value) : gmap string value :=
  match s with
  | VObj o => o
  | VArr elems => indexed elems
  | VStr t => indexed (code_units t)
  | _ => ∅
  end.

(** The own properties that are not enumerable. *)
Definition hidden (s : value) : gmap string value :=
  match s with
  | VArr elems => {["length" := VNum (Z.of_nat (length elems))]}
  | VStr t => {["length" := VNum (Z.of_nat (String.length t))]}
  | VFun f =>
      <["length" := VNum (Z.of_nat (fn_length f))]>
        {["name" := VStr (fn_name f)]}
  | _ => ∅
  end.

(** [s[key]] *)
Definition get_prop (s : value) (key : string) : res value :=
  match s with
  | VUndefined | VNull => Throw TypeError
  | VObj o => Ok (default VUndefined (o !! key))
  | _ => Ok (default VUndefined ((spread s ∪ hidden s) !! key))
  end.

(** ** The three optics

    [Lens], [Prism] and [Iso] are one tagged union; the constructors are the
    three factory functions of the source. *)

Inductive tag : Type := lens | prism | iso.

Inductive optic : Type :=
  | makeLens (get : value → res value) (set : value → value → res value)
  | makePrism (get : value → res value) (set : value → value → res value)
  | makeIso (to : value → res value) (from : value → res value).

Definition _tag (o : optic) : tag :=
  match o with
  | makeLens _ _ => lens
  | makePrism _ _ => prism
  | makeIso _ _ => iso
  end.

(** Field access [o.get], [o.set], [o.to], [o.from].  A field the object does
    not have is [undefined], and calling it throws. *)
Definition get (o : optic) : value → res value :=
  match o with
  | makeLens g _ | makePrism g _ => g
  | makeIso _ _ => λ _, Throw TypeError
  end.

Definition set (o : optic) : value → value → res value :=
  match o with
  | makeLens _ st | makePrism _ st => st
  | makeIso _ _ => λ _ _, Throw TypeError
  end.

Definition to (o : optic) : value → res value :=
  match o with
  | makeIso t _ => t
  | _ => λ _, Throw TypeError
  end.

Definition from (o : optic) : value → res value :=
  match o with
  | makeIso _ f => f
  | _ => λ _, Throw TypeError
  end.

Section Optics.

(** The closure table: [call f x] is the outcome of invoking the function
    value [VFun f] on [x]. *)
Variable call : fnid → value → res value.

(** [a(x)]: invoking a value that is not a function throws. *)
Definition invoke (a x : value) : res value :=
  match a with
  | VFun f => call f x
  | _ => Throw TypeError
  end.

(** [prop(key)] *)
Definition prop (key : string) : optic :=
  makeLens
    (λ s, get_prop s key)
    (λ a s,
      newA ← (if is_function a then cur ← get_prop s key; invoke a cur
              else Ok a);
      Ok (VObj (<[key := newA]> (spread s)))).

(** [compose(outer, inner)]: the chain of [if]s on the two tags, in the
    order of the source; the last case is its closing [return]. *)
Definition compose (outer inner : optic) : optic :=
  match _tag outer, _tag inner with
  | lens, lens =>
      makeLens
        (λ s, a ← get outer s; get inner a)
        (λ b s,
          a ← get outer s;
          newA ← set inner b a;
          set outer newA s)
  | lens, iso =>
      makeLens
        (λ s, a ← get outer s; to inner a)
        (λ b s,
          currentA ← get outer s;
          nextB ← (if is_function b
                   then currentB ← to inner currentA; invoke b currentB
                   else Ok b);
          newA ← from inner nextB;
          set outer newA s)
  | iso, lens =>
      makeLens
        (λ s, a ← to outer s; get inner a)
        (λ b s,
          a ← to outer s;
          newA ← set inner b a;
          from outer newA)
  | prism, iso =>
      makePrism
        (λ s,
          outerValue ← get outer s;
          if is_undefined outerValue then Ok VUndefined
          else to inner outerValue)
        (λ b s,
          outerValue ← get outer s;
          if is_function b then
            if is_undefined outerValue then Ok s
            else
              currentB ← to inner outerValue;
              nextB ← invoke b currentB;
              newOuterValue ← from inner nextB;
              set outer newOuterValue s
          else
            newOuterValue ← from inner b;
            set outer newOuterValue s)
  | iso, prism =>
      makePrism
        (λ s, a ← to outer s; get inner a)
        (λ b s,
          a ← to outer s;
          newA ← set inner b a;
          from outer newA)
  | iso, iso =>
      makeIso
        (λ s, a ← to outer s; to inner a)
        (λ b, a ← from inner b; from outer a)
  | _, _ =>
      makePrism
        (λ s,
          outerValue ← get outer s;
          if is_undefined outerValue then Ok VUndefined
          else get inner outerValue)
        (λ b s,
          outerValue ← get outer s;
          if is_undefined outerValue then Ok s
          else
            newOuterValue ← set inner b outerValue;
            set outer newOuterValue s)
  end.

(** [Prism<S>().of({ get, set })]: [prism_get] and [prism_set] are the
    caller's [prism.get] and [prism.set]. *)
Definition Prism_of (prism_get : value → res value)
    (prism_set : value → value → res value) : optic :=
  makePrism
    prism_get
    (λ a s,
      if is_function a then
        current ← prism_get s;
        if is_undefined current then Ok s
        else
          next ← invoke a current;
          prism_set next s
      else prism_set a s).

(** [Lens<S>().compose] and [Prism<S>().compose] dispatch on the inner tag
    and call [compose] in every branch. *)
Definition composeForLens (outer inner : optic) : optic :=
  match _tag inner with
  | lens => compose outer inner
  | prism => compose outer inner
  | iso => compose outer inner
  end.

Definition composeForPrism (outer inner : optic) : optic :=
  match _tag inner with
  | lens => compose outer inner
  | prism => compose outer inner
  | iso => compose outer inner
  end.

(** ** The optics a program can build

    [makeLens] and [makePrism] are private to the module: every Lens comes
    from [prop] or [compose], every Prism from [Prism().of] or [compose],
    every Iso from [Iso] (which is [makeIso]) or [compose]. *)

Inductive built : optic → Prop :=
  | built_prop key :
      built (prop key)
  | built_of prism_get prism_set :
      built (Prism_of prism_get prism_set)
  | built_iso to_ from_ :
      built (makeIso to_ from_)
  | built_compose outer inner :
      built outer → built inner → built (compose outer inner).

(** ** Typed optics

    A type of the host program is the set of its values.  The TypeScript
    declarations [K extends keyof S], [Lens<S, A>] and [Iso<S, A>] become
    the predicates below. *)

Definition vtype : Type := value → Prop.

(** A type without function values. *)
Definition data (A : vtype) : Prop :=
  ∀ a, A a → is_function a = false.

(** [key] is a field of [S] of type [A], and [S] admits the record update
    [{ ...s, [key]: a }]. *)
Record has_field (S A : vtype) (key : string) : Prop := {
  field_read : ∀ s, S s → ∃ a, get_prop s key = Ok a ∧ A a;
  field_write : ∀ s a, S s → A a → S (VObj (<[key := a]> (spread s)))
}.

(** [to_] maps [S] to [A], [from_] maps [A] to [S], and converting a target
    value back and forth gives it again: [to(from(a)) = a]. *)
Record iso_between (S A : vtype) (to_ from_ : value → res value) : Prop := {
  iso_to : ∀ s, S s → ∃ a, to_ s = Ok a ∧ A a;
  iso_from : ∀ a, A a → ∃ s, from_ a = Ok s ∧ S s ∧ to_ s = Ok a
}.

Inductive Iso_for : vtype → vtype → optic → Prop :=
  | Iso_make S A to_ from_ :
      iso_between S A to_ from_ →
      Iso_for S A (makeIso to_ from_)
  | Iso_iso S A B outer inner :
      Iso_for S A outer → Iso_for A B inner →
      Iso_for S B (compose outer inner).

(** The Lenses: [prop] and the three Lens-yielding compositions. *)
Inductive Lens_for : vtype → vtype → optic → Prop :=
  | Lens_prop S A key :
      has_field S A key →
      Lens_for S A (prop key)
  | Lens_lens S A B outer inner :
      data A → Lens_for S A outer → Lens_for A B inner →
      Lens_for S B (compose outer inner)
  | Lens_iso S A B outer inner :
      data A → Lens_for S A outer → Iso_for A B inner →
      Lens_for S B (compose outer inner)
  | Iso_lens S A B outer inner :
      Iso_for S A outer → Lens_for A B inner →
      Lens_for S B (compose outer inner).

(** What a typed Lens does on its types: [get] is total, a literal [set]
    succeeds, stays in the source type, and is read back by [get]. *)
Definition lens_law (S A : vtype) (l : optic) : Prop :=
  _tag l = lens ∧
  (∀ s, S s → ∃ a, get l s = Ok a ∧ A a) ∧
  (∀ s v, S s → A v → is_function v = false →
     ∃ s', set l v s = Ok s' ∧ S s' ∧ get l s' = Ok v).

End Optics.

Arguments invoke call !a x /.

(** ** [prop] over an object store

    In the definitions above an object is its contents.  To observe which
    object a field refers to, and whether a call writes to an object that
    exists already, [prop] is embedded a second time over a store of objects:
    an object value is a reference, [{ ...s, [key]: a }] allocates. *)

Module Store.

Abbreviation loc := nat.

Inductive sval : Type :=
  | SUndefined
  | SNull
  | SBool (b : bool)
  | SNum (n : Z)
  | SStr (s : string)
  | SFun (f : fnid)
  | SRef (l : loc).

(** What a reference refers to: a plain object, which is the map of its
    properties, or an array, which is the list of its elements. *)
Inductive cell : Type :=
  | Plain (o : gmap string sval)
  | Arr (elems : list sval).

(** The store: the objects allocated so far, in order of allocation. *)
Abbreviation store := (list cell).

(** A computation ends with a value and a store, or throws.  [Dangling]
    marks a reference to no object of the store, which no program holds. *)
Inductive outcome (A : Type) : Type :=
  | Done (a : A) (h : store)
  | Raise (e : error)
  | Dangling.
Arguments Done {A} a h.
Arguments Raise {A} e.
Arguments Dangling {A}.

Definition M (A : Type) : Type := store → outcome A.

#[global] Instance M_ret : MRet M := λ A a h, Done a h.
#[global] Instance M_bind : MBind M := λ A B k m h,
  match m h with
  | Done a h' => k a h'
  | Raise e => Raise e
  | Dangling => Dangling
  end.

(** [typeof a === 'function'] *)
Definition is_function (a : sval) : bool :=
  match a with SFun _ => true | _ => false end.

(** The code units of a string, each a string of length one. *)
Definition code_units (s : string) : list sval :=
  (λ c, SStr (String c EmptyString)) <$> String.list_ascii_of_string s.

(** The own enumerable properties of an object of the store: the properties
    of a plain object, the elements of an array under their index keys. *)
Definition fields (c : cell) : gmap string sval :=
  match c with
  | Plain o => o
  | Arr elems => indexed elems
  end.

(** [c[key]] for an object of the store: an array has a [length] besides its
    elements. *)
Definition read (c : cell) (key : string) : sval :=
  match c with
  | Plain o => default SUndefined (o !! key)
  | Arr elems =>
      default SUndefined
        ((indexed elems ∪ {["length" := SNum (Z.of_nat (length elems))]})
           !! key)
  end.

(** The own properties of a value that is not a reference. *)
Definition own (s : sval) : gmap string sval :=
  match s with
  | SStr t => indexed (code_units t)
  | _ => ∅
  end.

Definition hidden (s : sval) : gmap string sval :=
  match s with
  | SStr t => {["length" := SNum (Z.of_nat (String.length t))]}
  | SFun f =>
      <["length" := SNum (Z.of_nat (fn_length f))]>
        {["name" := SStr (fn_name f)]}
  | _ => ∅
  end.

(** [s[key]] *)
Definition get_prop (s : sval) (key : string) : M sval := λ h,
  match s with
  | SUndefined | SNull => Raise TypeError
  | SRef l =>
      match h !! l with
      | Some c => Done (read c key) h
      | None => Dangling
      end
  | _ => Done (default SUndefined ((own s ∪ hidden s) !! key)) h
  end.

(** The own enumerable properties copied by [{ ...s }]. *)
Definition spread (s : sval) : M (gmap string sval) := λ h,
  match s with
  | SRef l =>
      match h !! l with
      | Some c => Done (fields c) h
      | None => Dangling
      end
  | _ => Done (own s) h
  end.

(** An object literal allocates a new plain object. *)
Definition alloc (o : gmap string sval) : M sval := λ h,
  Done (SRef (length h)) (h ++ [Plain o]).

Record Lens : Type := makeLens {
  get : sval → M sval;
  set : sval → sval → M sval
}.

Section Calls.

(** The closure table; a call may allocate and write to the store. *)
Variable call : fnid → sval → M sval.

Definition invoke (a x : sval) : M sval :=
  match a with
  | SFun f => call f x
  | _ => λ _, Raise TypeError
  end.

(** [prop(key)] *)
Definition prop (key : string) : Lens :=
  makeLens
    (λ s, get_prop s key)
    (λ a s,
      newA ← (if is_function a then cur ← get_prop s key; invoke a cur
              else mret a);
      o ← spread s;
      alloc (<[key := newA]> o)).

End Calls.

(** *** From the store back to contents

    [contents n h v] is the value [v] stands for in the store [h], followed
    through [n] levels of references; below that depth an object is cut off
    and reads as [undefined]. *)

Fixpoint contents (n : nat) (h : store) (v : sval) : value :=
  match v with
  | SUndefined => VUndefined
  | SNull => VNull
  | SBool b => VBool b
  | SNum z => VNum z
  | SStr s => VStr s
  | SFun f => VFun f
  | SRef l =>
      match n with
      | 0 => VUndefined
      | S n' =>
          match h !! l with
          | Some (Plain o) => VObj (contents n' h <$> o)
          | Some (Arr elems) => VArr (contents n' h <$> elems)
          | None => VUndefined
          end
      end
  end.

(** A value of the store refers to an object of the store, and so does every
    field of every object and every element of every array. *)
Definition valid (h : store) (v : sval) : Prop :=
  match v with
  | SRef l => l < length h
  | _ => True
  end.

Definition closed (h : store) : Prop :=
  ∀ l c, h !! l = Some c →
    match c with
    | Plain o => ∀ key v, o !! key = Some v → valid h v
    | Arr elems => ∀ v, v ∈ elems → valid h v
    end.

End Store.

(** ** Optics with all their laws

    The typed optics above ask of an Iso only [to(from(a)) = a], which is
    what reading back a [set] needs.  Setting the value that is there already
    needs more: the field is an own property of the source, and the Iso is
    inverse in both directions. *)

Section Lawful.

Variable call : fnid → value → res value.

(** [key] is an own property of every value of [S]. *)
Record has_own_field (S A : vtype) (key : string) : Prop := {
  own_field : has_field S A key;
  own_present : ∀ s, S s → ∃ o, s = VObj o ∧ is_Some (o !! key)
}.

(** Both round trips: [to(from(a)) = a] and [from(to(s)) = s]. *)
Record iso_inverse (S A : vtype) (to_ from_ : value → res value) : Prop := {
  inverse_between : iso_between S A to_ from_;
  inverse_from_to : ∀ s, S s → ∃ a, to_ s = Ok a ∧ from_ a = Ok s
}.

Inductive Iso_full : vtype → vtype → optic → Prop :=
  | Iso_full_make S A to_ from_ :
      iso_inverse S A to_ from_ →
      Iso_full S A (makeIso to_ from_)
  | Iso_full_iso S A B outer inner :
      Iso_full S A outer → Iso_full A B inner →
      Iso_full S B (compose call outer inner).

Inductive Lens_full : vtype → vtype → optic → Prop :=
  | Lens_full_prop S A key :
      has_own_field S A key →
      Lens_full S A (prop call key)
  | Lens_full_lens S A B outer inner :
      data A → Lens_full S A outer → Lens_full A B inner →
      Lens_full S B (compose call outer inner)
  | Lens_full_iso S A B outer inner :
      data A → Lens_full S A outer → Iso_full A B inner →
      Lens_full S B (compose call outer inner)
  | Iso_full_lens S A B outer inner :
      Iso_full S A outer → Lens_full A B inner →
      Lens_full S B (compose call outer inner).

(** The two further laws of a Lens: a second [set] overrides the first,
    and setting the value that [get] returns changes nothing. *)
Definition lens_set_set_law (S A : vtype) (l : optic) : Prop :=
  ∀ s v1 v2, S s → A v1 → A v2 →
    is_function v1 = false → is_function v2 = false →
    ∃ s1, set l v1 s = Ok s1 ∧ set l v2 s1 = set l v2 s.

Definition lens_set_get_law (S : vtype) (l : optic) : Prop :=
  ∀ s a, S s → get l s = Ok a → is_function a = false → set l a s = Ok s.

(** A type whose values are neither [undefined] nor functions: the focus of
    a Prism, when it is there. *)
Definition solid (A : vtype) : Prop :=
  ∀ a, A a → is_undefined a = false ∧ is_function a = false.

(** What [Prism().of] is given: a getter that returns [undefined] or a value
    of [A], and a setter that [get] reads back and that changes nothing when
    given the value that is there. *)
Record prism_base (S A : vtype)
    (prism_get : value → res value)
    (prism_set : value → value → res value) : Prop := {
  base_get : ∀ s, S s → ∃ a, prism_get s = Ok a ∧ (a = VUndefined ∨ A a);
  base_get_set : ∀ s v, S s → A v →
    ∃ s', prism_set v s = Ok s' ∧ S s' ∧ prism_get s' = Ok v;
  base_set_get : ∀ s cur, S s → prism_get s = Ok cur → A cur →
    prism_set cur s = Ok s
}.

(** The Prisms: [Prism().of] and the Prism-yielding compositions a typed
    caller can write with [Lens<S>().compose] and [Prism<S>().compose]. *)
Inductive Prism_for : vtype → vtype → optic → Prop :=
  | Prism_base S A prism_get prism_set :
      solid A → prism_base S A prism_get prism_set →
      Prism_for S A (Prism_of call prism_get prism_set)
  | Prism_prism S A B outer inner :
      Prism_for S A outer → Prism_for A B inner →
      Prism_for S B (composeForPrism call outer inner)
  | Prism_lens S A B outer inner :
      solid B → Prism_for S A outer → Lens_full A B inner →
      Prism_for S B (composeForPrism call outer inner)
  | Prism_iso S A B outer inner :
      solid B → Prism_for S A outer → Iso_full A B inner →
      Prism_for S B (composeForPrism call outer inner)
  | Lens_prism S A B outer inner :
      solid A → Lens_full S A outer → Prism_for A B inner →
      Prism_for S B (composeForLens call outer inner).

(** What a typed Prism does on its types. *)
Definition prism_laws (S A : vtype) (p : optic) : Prop :=
  _tag p = prism ∧
  (∀ s, S s → ∃ a, get p s = Ok a ∧ (a = VUndefined ∨ A a)) ∧
  (∀ s v cur, S s → A v → get p s = Ok cur → A cur →
     ∃ s', set p v s = Ok s' ∧ S s' ∧ get p s' = Ok v) ∧
  (∀ s cur, S s → get p s = Ok cur → A cur → set p cur s = Ok s) ∧
  (∀ s f, S s → get p s = Ok VUndefined → set p (VFun f) s = Ok s).

End Lawful.

(** ** The earlier revision of [compose]

    The second copy of the module in [src/index.ts] (lines 377-626, [compose] at 516-550) predates
    Isos: its [compose] has the Lens∘Lens case and the closing case only.
    Its [prop] and [Prism().of] are those of the current revision. *)

Module Previous.

Definition compose (outer inner : optic) : optic :=
  match _tag outer, _tag inner with
  | lens, lens =>
      makeLens
        (λ s, a ← get outer s; get inner a)
        (λ b s,
          a ← get outer s;
          newA ← set inner b a;
          set outer newA s)
  | _, _ =>
      makePrism
        (λ s,
          outerValue ← get outer s;
          if is_undefined outerValue then Ok VUndefined
          else get inner outerValue)
        (λ b s,
          outerValue ← get outer s;
          if is_undefined outerValue then Ok s
          else
            newOuterValue ← set inner b outerValue;
            set outer newOuterValue s)
  end.

End Previous.

(** ** Optics of the test suite and the README

    The concrete optics and sources used below to run the definitions. *)

Module Samples.

(** A closure table for the examples:
    - [0] is [(r) => r + 1] on a number and gives [undefined] otherwise;
    - [1] is [(h) => g], an updater that returns the function value
      [g = VFun 2];
    - every other function, [g] among them, returns [undefined]. *)
Definition table (f : fnid) (x : value) : res value :=
  match fn_ref f, x with
  | 0, VNum n => Ok (VNum (n + 1))
  | 1, _ => Ok (VFun 2)
  | _, _ => Ok VUndefined
  end.

(** [{ name: 'John', age: 30 }] *)
Definition john : value :=
  VObj (<["name" := VStr "John"]> (<["age" := VNum 30]> ∅)).

(** [{ name: 'John', age: 30, address: { street: '123', city: 'New York' } }] *)
Definition john_home : value :=
  VObj (<["name" := VStr "John"]> (<["age" := VNum 30]>
    (<["address" := VObj (<["street" := VStr "123"]>
                           (<["city" := VStr "New York"]> ∅))]> ∅))).

(** [Prism<Person>().of({ get: (p) => p.address,
                          set: (address) => (p) => ({ ...p, address }) })] *)
Definition address_get (p : value) : res value := get_prop p "address".
Definition address_set (address p : value) : res value :=
  Ok (VObj (<["address" := address]> (spread p))).
Definition addressPrism : optic := Prism_of table address_get address_set.

(** [Prism<Address>().of({ get: (a) => a.city,
                           set: (city) => (a) => ({ ...a, city }) })] *)
Definition city_get (a : value) : res value := get_prop a "city".
Definition city_set (city a : value) : res value :=
  Ok (VObj (<["city" := city]> (spread a))).
Definition cityPrism : optic := Prism_of table city_get city_set.

(** [Prism<Model>().of({ get: (m) => m.count,
                         set: (count) => (m) => ({ ...m, count }) })] *)
Definition count_get (m : value) : res value := get_prop m "count".
Definition count_set (count m : value) : res value :=
  Ok (VObj (<["count" := count]> (spread m))).
Definition countPrism : optic := Prism_of table count_get count_set.

(** [Iso<number, number>({ to: (n) => n + 1, from: (n) => n - 1 })], each
    direction guarded by [typeof n === 'number'] and [undefined] otherwise. *)
Definition succ_to (a : value) : res value :=
  match a with VNum n => Ok (VNum (n + 1)) | _ => Ok VUndefined end.
Definition succ_from (b : value) : res value :=
  match b with VNum n => Ok (VNum (n - 1)) | _ => Ok VUndefined end.
Definition succIso : optic := makeIso succ_to succ_from.

(** [Iso<{ x?: number }, number | undefined>({ to: (s) => s.x,
                                              from: (a) => ({ x: a }) })] *)
Definition box_to (s : value) : res value := get_prop s "x".
Definition box_from (a : value) : res value := Ok (VObj (<["x" := a]> ∅)).
Definition boxIso : optic := makeIso box_to box_from.

(** [Prism<number | undefined>().of({ get: (a) => a, set: (b) => (_) => b })] *)
Definition self_get (a : value) : res value := Ok a.
Definition self_set (b _ : value) : res value := Ok b.
Definition selfPrism : optic := Prism_of table self_get self_set.

(** [Iso<boolean, number>({ to: (b) => (b === true ? 1 : 0),
                           from: (n) => n !== 0 })] *)
Definition flag_to (s : value) : res value :=
  match s with
  | VBool true => Ok (VNum 1)
  | _ => Ok (VNum 0)
  end.
Definition flag_from (a : value) : res value :=
  match a with
  | VNum 0 => Ok (VBool false)
  | _ => Ok (VBool true)
  end.
Definition flagIso : optic := makeIso flag_to flag_from.

(** [{ on: true }] *)
Definition switch : value := VObj (<["on" := VBool true]> ∅).

(** [{ onClick: h }], a record with a field of function type; [h = VFun 3]. *)
Definition widget : value := VObj (<["onClick" := VFun 3]> ∅).

(** A prism on [onClick], with the two shapes of setter [Prism().of] accepts:
    [(a) => (p) => ({ ...p, onClick: a })] and
    [(a) => (p) => ({ ...p, onClick: typeof a === 'function' ? a(p.onClick) : a })]. *)
Definition onClick_get (p : value) : res value := get_prop p "onClick".
Definition onClick_set_base (a p : value) : res value :=
  Ok (VObj (<["onClick" := a]> (spread p))).
Definition onClick_set_full (a p : value) : res value :=
  next ← (if is_function a then cur ← get_prop p "onClick"; invoke table a cur
          else Ok a);
  Ok (VObj (<["onClick" := next]> (spread p))).

(** The types of the composed-lens test: any value, an object, and an object
    whose [address] is an object. *)
Definition Anything : vtype := λ _, True.
Definition Address : vtype := λ a, ∃ o, a = VObj o.
Definition Person : vtype :=
  λ p, ∃ o a, p = VObj o ∧ o !! "address" = Some a ∧ Address a.

(** [Lens<Person>().compose(Lens<Person>().prop('address'),
                            Lens<Address>().prop('city'))] *)
Definition personCityLens : optic :=
  compose table (prop table "address") (prop table "city").

(** A store with the person of the tests: object [0] is the address, object
    [1] the person, whose [address] refers to object [0]. *)
Definition home_store : Store.store :=
  [ Store.Plain (<["street" := Store.SStr "123"]>
                   (<["city" := Store.SStr "New York"]> ∅));
    Store.Plain (<["name" := Store.SStr "John"]> (<["age" := Store.SNum 30]>
                   (<["address" := Store.SRef 0]> ∅))) ].

(** A store with the array [['John', 'Jane']] as its one object. *)
Definition team_store : Store.store :=
  [ Store.Arr [Store.SStr "John"; Store.SStr "Jane"] ].

(** [{ name: 'Acme', employees: ['John', 'Jane'] }] *)
Definition acme : value :=
  VObj (<["name" := VStr "Acme"]>
         (<["employees" := VArr [VStr "John"; VStr "Jane"]]> ∅)).

(** Over the store: [0] is [(n) => n + 1] on a number; every other call
    returns [undefined].  No call writes to the store. *)
Definition store_table (f : fnid) (x : Store.sval) : Store.M Store.sval :=
  λ h,
    match fn_ref f, x with
    | 0, Store.SNum n => Store.Done (Store.SNum (n + 1)) h
    | _, _ => Store.Done Store.SUndefined h
    end.

(** [{ type: 'circle', radius: 5 }] and [{ type: 'square', side: 10 }] *)
Definition circle5 : value :=
  VObj (<["type" := VStr "circle"]> (<["radius" := VNum 5]> ∅)).
Definition square10 : value :=
  VObj (<["type" := VStr "square"]> (<["side" := VNum 10]> ∅)).

(** [Prism<Shape>().of({ get: (s) => (s.type === 'circle' ? s : undefined),
                           set: (circle) => (_) => circle })] *)
Definition circle_get (s : value) : res value :=
  type ← get_prop s "type";
  match type with
  | VStr t => if String.eqb t "circle" then Ok s else Ok VUndefined
  | _ => Ok VUndefined
  end.
Definition circle_set (circle _ : value) : res value := Ok circle.
Definition circlePrism : optic := Prism_of table circle_get circle_set.

(** The own property [key] of the object a computation returned, if any. *)
Definition read_field (key : string) (r : res value) : option value :=
  match r with
  | Ok (VObj o) => o !! key
  | _ => None
  end.

(** An inner optic whose every field throws when called. *)
Definition throwing (t : tag) : optic :=
  match t with
  | lens => makeLens (λ _, Throw TypeError) (λ _ _, Throw TypeError)
  | prism => makePrism (λ _, Throw TypeError) (λ _ _, Throw TypeError)
  | iso => makeIso (λ _, Throw TypeError) (λ _, Throw TypeError)
  end.

End Samples.

(** ** Types for the optics of the tests *)

Module Types.

(** [string] and [number]. *)
Definition Text : vtype := λ v, ∃ t, v = VStr t.
Definition Num : vtype := λ v, ∃ n, v = VNum n.

(** [{ street?: string; city: string }]: an object with a [city]. *)
Definition AddressC : vtype :=
  λ a, ∃ o t, a = VObj o ∧ o !! "city" = Some (VStr t).

(** [{ address: Address }]: an object with an [address]. *)
Definition PersonC : vtype :=
  λ p, ∃ o a, p = VObj o ∧ o !! "address" = Some a ∧ AddressC a.

(** [{ city?: string }]: an object whose [city], if any, is a string. *)
Definition AddressOpt : vtype :=
  λ a, ∃ o, a = VObj o ∧
    (o !! "city" = None ∨ ∃ t, o !! "city" = Some (VStr t)).

(** [{ address?: Address }]: an object whose [address], if any, is an
    address. *)
Definition PersonOpt : vtype :=
  λ p, ∃ o, p = VObj o ∧
    (o !! "address" = None ∨ ∃ a, o !! "address" = Some a ∧ AddressOpt a).

(** [Prism<Person>().compose(addressPrism, cityPrism)] *)
Definition personCityPrism : optic :=
  composeForPrism Samples.table Samples.addressPrism Samples.cityPrism.

(** [Prism<Shape>().compose(circlePrism, Lens<Circle>().prop('radius'))] *)
Definition circleRadius : optic :=
  composeForPrism Samples.table Samples.circlePrism
    (prop Samples.table "radius").

End Types.

(** * Properties *)

Section Laws.

Variable call : fnid → value → res value.

Local Abbreviation compose := (compose call).
Local Abbreviation prop := (prop call).
Local Abbreviation Prism_of := (Prism_of call).
Local Abbreviation invoke := (invoke call).

(** Once both operands are known by their factories, [compose] computes to
    one of its cases. *)
Ltac by_tags outer inner :=
  destruct outer, inner; simpl in *; try done; try congruence.

(** ** The cases of [compose] *)

(** The closing case of [compose]: neither operand is an Iso and one of them
    is a Prism. *)
Lemma compose_general_eq (outer inner : optic) :
  _tag outer ≠ iso → _tag inner ≠ iso →
  _tag outer = prism ∨ _tag inner = prism →
  compose outer inner =
    makePrism
      (λ s,
        outerValue ← get outer s;
        if is_undefined outerValue then Ok VUndefined
        else get inner outerValue)
      (λ b s,
        outerValue ← get outer s;
        if is_undefined outerValue then Ok s
        else
          newOuterValue ← set inner b outerValue;
          set outer newOuterValue s).
Proof. intros Ho Hi [H|H]; by_tags outer inner. Qed.

Lemma compose_iso_prism_eq (outer inner : optic) :
  _tag outer = iso → _tag inner = prism →
  compose outer inner =
    makePrism
      (λ s, a ← to outer s; get inner a)
      (λ b s, a ← to outer s; newA ← set inner b a; from outer newA).
Proof. intros Ho Hi; by_tags outer inner. Qed.

Lemma compose_prism_iso_eq (outer inner : optic) :
  _tag outer = prism → _tag inner = iso →
  compose outer inner =
    makePrism
      (λ s,
        outerValue ← get outer s;
        if is_undefined outerValue then Ok VUndefined
        else to inner outerValue)
      (λ b s,
        outerValue ← get outer s;
        if is_function b then
          if is_undefined outerValue then Ok s
          else
            currentB ← to inner outerValue;
            nextB ← invoke b currentB;
            newOuterValue ← from inner nextB;
            set outer newOuterValue s
        else
          newOuterValue ← from inner b;
          set outer newOuterValue s).
Proof. intros Ho Hi; by_tags outer inner. Qed.

Lemma compose_lens_lens_eq (outer inner : optic) :
  _tag outer = lens → _tag inner = lens →
  compose outer inner =
    makeLens
      (λ s, a ← get outer s; get inner a)
      (λ b s, a ← get outer s; newA ← set inner b a; set outer newA s).
Proof. intros Ho Hi; by_tags outer inner. Qed.

Lemma compose_lens_iso_eq (outer inner : optic) :
  _tag outer = lens → _tag inner = iso →
  compose outer inner =
    makeLens
      (λ s, a ← get outer s; to inner a)
      (λ b s,
        currentA ← get outer s;
        nextB ← (if is_function b
                 then currentB ← to inner currentA; invoke b currentB
                 else Ok b);
        newA ← from inner nextB;
        set outer newA s).
Proof. intros Ho Hi; by_tags outer inner. Qed.

Lemma compose_iso_lens_eq (outer inner : optic) :
  _tag outer = iso → _tag inner = lens →
  compose outer inner =
    makeLens
      (λ s, a ← to outer s; get inner a)
      (λ b s, a ← to outer s; newA ← set inner b a; from outer newA).
Proof. intros Ho Hi; by_tags outer inner. Qed.

Lemma compose_iso_iso_eq (outer inner : optic) :
  _tag outer = iso → _tag inner = iso →
  compose outer inner =
    makeIso
      (λ s, a ← to outer s; to inner a)
      (λ b, a ← from inner b; from outer a).
Proof. intros Ho Hi; by_tags outer inner. Qed.

(** ** The get/set round trip of a Lens *)

(** An Iso built by [Iso] and [compose] from conversions that satisfy
    [to(from(a)) = a] satisfies it too. *)
Lemma Iso_for_between (S A : vtype) (i : optic) :
  Iso_for call S A i →
  _tag i = iso ∧ iso_between S A (to i) (from i).
Proof.
  induction 1 as [S A to_ from_ Hiso
                 |S A B outer inner _ [Ho [Hto Hfrom]] _ [Hi [Hto' Hfrom']]].
  - done.
  - rewrite compose_iso_iso_eq by done. split; [done|]. split; simpl.
    + intros s Hs. destruct (Hto s Hs) as (a & -> & Ha). simpl. eauto.
    + intros b Hb. destruct (Hfrom' b Hb) as (a & -> & Ha & Hab). simpl.
      destruct (Hfrom a Ha) as (s & -> & Hs & Hsa).
      exists s. split_and!; [done..|]. by rewrite Hsa.
Qed.

Lemma prop_law (S A : vtype) (key : string) :
  has_field S A key → lens_law S A (prop key).
Proof.
  intros [Hread Hwrite]. split_and!; [done|exact Hread|].
  intros s v Hs Hv Hlit. simpl. rewrite Hlit. simpl.
  eexists. split_and!; [done|by apply Hwrite|].
  simpl. by rewrite lookup_insert_eq.
Qed.

Lemma compose_lens_lens_law (S A B : vtype) (outer inner : optic) :
  data A → lens_law S A outer → lens_law A B inner →
  lens_law S B (compose outer inner).
Proof.
  intros HA (Ho & Hget & Hset) (Hi & Hget' & Hset').
  rewrite compose_lens_lens_eq by done. split_and!; [done|..]; simpl.
  - intros s Hs. destruct (Hget s Hs) as (a & -> & Ha). simpl. eauto.
  - intros s v Hs Hv Hlit. destruct (Hget s Hs) as (a & -> & Ha). simpl.
    destruct (Hset' a v Ha Hv Hlit) as (a' & -> & Ha' & Hread'). simpl.
    destruct (Hset s a' Hs Ha' (HA _ Ha')) as (s' & -> & Hs' & Hread).
    exists s'. split_and!; [done..|]. by rewrite Hread.
Qed.

Lemma compose_lens_iso_law (S A B : vtype) (outer inner : optic) :
  data A → lens_law S A outer →
  _tag inner = iso → iso_between A B (to inner) (from inner) →
  lens_law S B (compose outer inner).
Proof.
  intros HA (Ho & Hget & Hset) Hi [Hto Hfrom].
  rewrite compose_lens_iso_eq by done. split_and!; [done|..]; simpl.
  - intros s Hs. destruct (Hget s Hs) as (a & -> & Ha). simpl. eauto.
  - intros s v Hs Hv Hlit. destruct (Hget s Hs) as (a & -> & Ha). simpl.
    rewrite Hlit. simpl.
    destruct (Hfrom v Hv) as (a' & -> & Ha' & Hback). simpl.
    destruct (Hset s a' Hs Ha' (HA _ Ha')) as (s' & -> & Hs' & Hread).
    exists s'. split_and!; [done..|]. by rewrite Hread.
Qed.

Lemma compose_iso_lens_law (S A B : vtype) (outer inner : optic) :
  _tag outer = iso → iso_between S A (to outer) (from outer) →
  lens_law A B inner →
  lens_law S B (compose outer inner).
Proof.
  intros Ho [Hto Hfrom] (Hi & Hget & Hset).
  rewrite compose_iso_lens_eq by done. split_and!; [done|..]; simpl.
  - intros s Hs. destruct (Hto s Hs) as (a & -> & Ha). simpl. eauto.
  - intros s v Hs Hv Hlit. destruct (Hto s Hs) as (a & -> & Ha). simpl.
    destruct (Hset a v Ha Hv Hlit) as (a' & -> & Ha' & Hread). simpl.
    destruct (Hfrom a' Ha') as (s' & -> & Hs' & Hback).
    exists s'. split_and!; [done..|]. by rewrite Hback.
Qed.

Lemma Lens_for_law (S A : vtype) (l : optic) :
  Lens_for call S A l → lens_law S A l.
Proof.
  induction 1 as [S A key Hfield
                 |S A B outer inner HA _ IHo _ IHi
                 |S A B outer inner HA _ IHo Hiso
                 |S A B outer inner Hiso _ IHi].
  - by apply prop_law.
  - by eapply compose_lens_lens_law.
  - apply Iso_for_between in Hiso as [??]. by eapply compose_lens_iso_law.
  - apply Iso_for_between in Hiso as [??]. by eapply compose_iso_lens_law.
Qed.

(** C4, as the code has it: for every Lens built by [prop] and by the
    Lens-yielding compositions from Isos with [to(from(a)) = a], for every
    source [s] and every value [v] of the target type that is not a function,
    [set(v)(s)] succeeds and [get] of the result is [v]. *)
Theorem lens_get_set (S A : vtype) (l : optic) (s v : value) :
  Lens_for call S A l →
  S s → A v → is_function v = false →
  ∃ s', set l v s = Ok s' ∧ get l s' = Ok v.
Proof.
  intros Hl Hs Hv Hlit.
  destruct (Lens_for_law S A l Hl) as (_ & _ & Hset).
  destruct (Hset s v Hs Hv Hlit) as (s' & ? & _ & ?). eauto.
Qed.

(** ** [set] over a missing outer branch *)

(** C1, as the code has it: over a source whose outer value is absent, a
    literal [set] delegates to the outer optic's [set] for Prism∘Iso only.
    For Lens∘Prism, Prism∘Lens and Prism∘Prism it returns the source
    unchanged; for Iso∘Prism, whose outer optic has no [set], it applies
    [inner.set] to [outer.to(s)] and converts back with [outer.from]. *)
Theorem literal_set_absent_outer (outer inner : optic) (s b : value) :
  is_function b = false →
  (_tag outer = prism → _tag inner = iso → get outer s = Ok VUndefined →
     set (compose outer inner) b s =
       newOuterValue ← from inner b; set outer newOuterValue s) ∧
  (_tag outer ≠ iso → _tag inner ≠ iso →
   _tag outer = prism ∨ _tag inner = prism →
   get outer s = Ok VUndefined →
     set (compose outer inner) b s = Ok s) ∧
  (_tag outer = iso → _tag inner = prism →
     set (compose outer inner) b s =
       a ← to outer s; newA ← set inner b a; from outer newA).
Proof.
  intros Hb. split_and!.
  - intros Ho Hi Hget. rewrite compose_prism_iso_eq by done. simpl.
    by rewrite Hget, Hb.
  - intros Ho Hi Hp Hget. rewrite compose_general_eq by done. simpl.
    by rewrite Hget.
  - intros Ho Hi. by rewrite compose_iso_prism_eq.
Qed.

(** C2, as the code has it: for Lens∘Prism, Prism∘Lens and Prism∘Prism the
    composed [set] first obtains the outer value with the outer optic's [get];
    when it is absent the source is returned unchanged, for a literal and for
    a function alike, and otherwise [inner.set(b)] is applied to it and the
    result handed to [outer.set].  Iso∘Prism has a case of its own, without
    a test for absence. *)
Theorem general_set_outer (outer inner : optic) (s b : value) :
  (_tag outer ≠ iso → _tag inner ≠ iso →
   _tag outer = prism ∨ _tag inner = prism →
   ∀ outerValue, get outer s = Ok outerValue →
     set (compose outer inner) b s =
       if is_undefined outerValue then Ok s
       else
         newOuterValue ← set inner b outerValue;
         set outer newOuterValue s) ∧
  (_tag outer = iso → _tag inner = prism →
     set (compose outer inner) b s =
       a ← to outer s; newA ← set inner b a; from outer newA).
Proof.
  split.
  - intros Ho Hi Hp outerValue Hget. rewrite compose_general_eq by done.
    simpl. by rewrite Hget.
  - intros Ho Hi. by rewrite compose_iso_prism_eq.
Qed.

(** ** The combination table *)

Lemma composeFor_compose (outer inner : optic) :
  composeForLens call outer inner = compose outer inner ∧
  composeForPrism call outer inner = compose outer inner.
Proof. unfold composeForLens, composeForPrism. by destruct (_tag inner). Qed.

(** C3: for every pair of optics, the tag of [compose outer inner] follows the
    fixed table: Lens∘Lens, Lens∘Iso and Iso∘Lens are tagged [lens], Iso∘Iso
    is tagged [iso], and Lens∘Prism, Prism∘Lens, Prism∘Prism, Prism∘Iso and
    Iso∘Prism are tagged [prism]. *)
Theorem compose_tag_table (outer inner : optic) :
  _tag (compose outer inner) =
    match _tag outer, _tag inner with
    | lens, lens => lens
    | lens, iso => lens
    | iso, lens => lens
    | iso, iso => iso
    | lens, prism => prism
    | prism, lens => prism
    | prism, prism => prism
    | prism, iso => prism
    | iso, prism => prism
    end.
Proof. by destruct outer, inner. Qed.

(** ** The Prism constructor *)

(** C6: [Prism().of] normalises the caller's setter.  For a literal update it
    calls the caller's setter directly; for a function update it first calls
    [get(s)], returns [s] unchanged when the result is absent, and otherwise
    applies the function to the retrieved value and passes the result to the
    caller's setter.  The getter is the caller's. *)
Theorem Prism_of_normalizes (prism_get : value → res value)
    (prism_set : value → value → res value) (s : value) :
  get (Prism_of prism_get prism_set) s = prism_get s ∧
  (∀ a, is_function a = false →
     set (Prism_of prism_get prism_set) a s = prism_set a s) ∧
  (∀ a, is_function a = true → prism_get s = Ok VUndefined →
     set (Prism_of prism_get prism_set) a s = Ok s) ∧
  (∀ a current, is_function a = true →
     prism_get s = Ok current → is_undefined current = false →
     set (Prism_of prism_get prism_set) a s =
       next ← invoke a current; prism_set next s).
Proof.
  split_and!; simpl.
  - done.
  - by intros a ->.
  - by intros a -> ->.
  - intros a current -> -> Hc. simpl. by rewrite Hc.
Qed.

(** ** Prism∘Iso *)

(** C7: for Prism∘Iso, on a source whose outer [get] returns [outerValue]:
    [get] is absent when [outerValue] is absent and [inner.to(outerValue)]
    otherwise; [set] with a function is a no-op when [outerValue] is absent and
    otherwise applies the function to [inner.to(outerValue)], converts with
    [inner.from] and delegates to [outer.set]; [set] with a literal converts
    with [inner.from] and delegates to [outer.set], also when [outerValue] is
    absent. *)
Theorem compose_prism_iso (outer inner : optic) (s outerValue : value) :
  _tag outer = prism → _tag inner = iso →
  get outer s = Ok outerValue →
  get (compose outer inner) s =
    (if is_undefined outerValue then Ok VUndefined else to inner outerValue) ∧
  (∀ b, is_function b = true →
     set (compose outer inner) b s =
       if is_undefined outerValue then Ok s
       else
         currentB ← to inner outerValue;
         nextB ← invoke b currentB;
         newOuterValue ← from inner nextB;
         set outer newOuterValue s) ∧
  (∀ b, is_function b = false →
     set (compose outer inner) b s =
       newOuterValue ← from inner b; set outer newOuterValue s).
Proof.
  intros Ho Hi Hget. unfold compose. rewrite Ho, Hi. simpl.
  rewrite Hget. simpl. split_and!.
  - done.
  - by intros b ->.
  - by intros b ->.
Qed.

(** ** Absence of the outer branch on [get] *)

(** C8: when the outer operand is a Prism whose [get] is absent on [s], the
    composed [get] is absent whatever the inner optic is: the inner optic's
    [get] (or [to]) is not invoked, so even an inner optic that throws on
    every call leaves the result [undefined]. *)
Theorem compose_get_absent_outer (outer inner : optic) (s : value) :
  _tag outer = prism →
  get outer s = Ok VUndefined →
  get (compose outer inner) s = Ok VUndefined.
Proof.
  intros Ho Hget. unfold compose. rewrite Ho.
  destruct (_tag inner); simpl; by rewrite Hget.
Qed.

(** ** Function arguments of [set] *)


(** ** An updater is called on the current focus *)

Lemma built_updater_literal (o : optic) :
  built call o →
  ∀ f s cur v,
    get o s = Ok cur →
    _tag o = lens ∨ is_undefined cur = false →
    call f cur = Ok v → is_function v = false →
    set o (VFun f) s = set o v s.
Proof.
  induction 1 as [key|prism_get prism_set|to_ from_|outer inner _ _ _ IHi];
    intros f s cur v Hget Hpresent Hcall Hlit.
  - simpl in *. rewrite Hget. simpl. by rewrite Hcall, Hlit.
  - simpl in *. destruct Hpresent as [?|Hpresent]; [done|].
    by rewrite Hget, Hlit; simpl; rewrite Hpresent, Hcall.
  - done.
  - destruct outer as [og os|og os|ot ofr], inner as [ig ist|ig ist|it ifr];
      simpl in *; try done;
      try (destruct Hpresent as [?|Hpresent]; [done|]).
    + destruct (og s) as [a|]; simpl in *; [|done].
      by rewrite (IHi f a cur v) by auto.
    + destruct (og s) as [ov|]; simpl in *; [|done].
      destruct (is_undefined ov); [done|].
      by rewrite (IHi f ov cur v) by auto.
    + destruct (og s) as [a|]; simpl in *; [|done].
      rewrite Hget. simpl. by rewrite Hcall, Hlit.
    + destruct (og s) as [ov|]; simpl in *; [|done].
      destruct (is_undefined ov); [done|].
      by rewrite (IHi f ov cur v) by auto.
    + destruct (og s) as [ov|]; simpl in *; [|done].
      destruct (is_undefined ov); [done|].
      by rewrite (IHi f ov cur v) by auto.
    + destruct (og s) as [ov|]; simpl in *; [|done].
      rewrite Hlit.
      destruct (is_undefined ov).
      * injection Hget as <-. done.
      * rewrite Hget. simpl. by rewrite Hcall.
    + destruct (ot s) as [a|]; simpl in *; [|done].
      by rewrite (IHi f a cur v) by auto.
    + destruct (ot s) as [a|]; simpl in *; [|done].
      by rewrite (IHi f a cur v) by auto.
Qed.



(** C10, as the code has it: for a literal, the prism built by
    [Prism().of] calls the caller's setter with the literal; for a function
    updater over a present focus, it calls the updater itself on [get(s)]
    and gives the caller's setter the value the updater returned; over an
    absent focus it returns the source and the result does not depend on the
    caller's setter.  So when the updater returns a value that is not a
    function, the caller's own handling of function updaters is not
    exercised: two setters that agree on every literal give the same
    normalised [set]. *)
Theorem Prism_of_setter_sees_literals
    (prism_get : value → res value)
    (prism_set prism_set' : value → value → res value) (a s : value) :
  (is_function a = false →
     set (Prism_of prism_get prism_set) a s = prism_set a s) ∧
  (∀ current next, is_function a = true →
     prism_get s = Ok current → is_undefined current = false →
     invoke a current = Ok next →
     set (Prism_of prism_get prism_set) a s = prism_set next s) ∧
  (is_function a = true → prism_get s = Ok VUndefined →
     set (Prism_of prism_get prism_set) a s = Ok s ∧
     set (Prism_of prism_get prism_set') a s = Ok s) ∧
  ((∀ v s0, is_function v = false → prism_set v s0 = prism_set' v s0) →
   (∀ current next, is_function a = true →
      prism_get s = Ok current → invoke a current = Ok next →
      is_function next = false) →
   set (Prism_of prism_get prism_set) a s =
     set (Prism_of prism_get prism_set') a s).
Proof.
  split_and!.
  - intros Ha. simpl. by rewrite Ha.
  - intros current next Ha Hget Hpresent Hcall. simpl.
    rewrite Ha, Hget. simpl. rewrite Hpresent, Hcall. done.
  - intros Ha Hget. simpl. by rewrite Ha, Hget.
  - intros Hagree Hnext. simpl.
    destruct (is_function a) eqn:Ha; [|by apply Hagree].
    destruct (prism_get s) as [current|]; [simpl|done].
    destruct (is_undefined current); [done|].
    destruct (invoke a current) as [next|] eqn:Hcall; [simpl|done].
    apply Hagree. by eapply Hnext.
Qed.

End Laws.

(** ** [prop] over the store *)

Section StoreLaws.

Variable call : fnid → Store.sval → Store.M Store.sval.

(** A [set] of a [prop] Lens on [key] of an object or array [s] of the
    store, with a literal or with an updater that leaves the objects of the
    store alone, returns a new plain object: its [key] is the new value,
    every other enumerable own property has the value it has in [s] (for an
    object value, the same reference), and every object of the store, [s]
    included, is as it was. *)
Theorem prop_set_frame (key : string) (a : Store.sval) (l : Store.loc)
    (c : Store.cell) (h h1 : Store.store) (newA : Store.sval) :
  h !! l = Some c →
  (if Store.is_function a
   then Store.invoke call a (Store.read c key) h
   else Store.Done a h) = Store.Done newA h1 →
  (∀ l0 c0, h !! l0 = Some c0 → h1 !! l0 = Some c0) →
  ∃ l' o' h',
    Store.set (Store.prop call key) a (Store.SRef l) h
      = Store.Done (Store.SRef l') h' ∧
    h !! l' = None ∧
    h' !! l' = Some (Store.Plain o') ∧
    o' !! key = Some newA ∧
    (∀ other, other ≠ key → o' !! other = Store.fields c !! other) ∧
    (∀ l0 c0, h !! l0 = Some c0 → h' !! l0 = Some c0).
Proof.
  intros Hl Hupd Hpure.
  exists (length h1), (<[key := newA]> (Store.fields c)),
    (h1 ++ [Store.Plain (<[key := newA]> (Store.fields c))]).
  split_and!.
  - simpl. unfold mbind, Store.M_bind.
    destruct (Store.is_function a); simpl in *.
    + rewrite Hl. rewrite Hupd. by rewrite (Hpure _ _ Hl).
    + injection Hupd as -> ->. by rewrite Hl.
  - destruct (h !! length h1) as [c0|] eqn:Hlen; [|done].
    apply Hpure, lookup_lt_Some in Hlen. lia.
  - by rewrite lookup_app_r, Nat.sub_diag.
  - apply lookup_insert_eq.
  - intros other Hne. by rewrite lookup_insert_ne.
  - intros l0 c0 Hl0. apply lookup_app_l_Some. by apply Hpure.
Qed.

(** *** The two embeddings of [prop] agree *)

Lemma contents_alloc (n : nat) (h : Store.store) (c' : Store.cell)
    (v : Store.sval) :
  Store.closed h → Store.valid h v →
  Store.contents n (h ++ [c']) v = Store.contents n h v.
Proof.
  intros Hclosed. revert v.
  induction n as [|n IH]; intros [| | | | | |l] Hv; simpl in *; try done.
  destruct (proj2 (lookup_lt_is_Some h l) Hv) as [c Hc].
  rewrite lookup_app_l, Hc by done. specialize (Hclosed l c Hc).
  destruct c as [o|elems]; f_equal.
  - apply map_fmap_ext. intros key v Hkey. apply IH. by eapply Hclosed.
  - apply list_fmap_ext. intros i v Hi. apply IH, Hclosed.
    by eapply list_elem_of_lookup_2.
Qed.

Lemma contents_not_function (n : nat) (h : Store.store) (a : Store.sval) :
  Store.is_function a = false →
  is_function (Store.contents n h a) = false.
Proof.
  intros Hlit. destruct n, a as [| | | | | |l]; simpl in *; try done.
  by destruct (h !! l) as [[o|elems]|].
Qed.

(** Reading a field of a plain object in the store and then taking contents
    is reading the field of the contents. *)
Lemma prop_get_contents (n : nat) (key : string) (l : Store.loc)
    (o : gmap string Store.sval) (h : Store.store) :
  h !! l = Some (Store.Plain o) →
  ∃ v, Store.get (Store.prop call key) (Store.SRef l) h = Store.Done v h ∧
       get_prop (Store.contents (S n) h (Store.SRef l)) key
         = Ok (Store.contents n h v).
Proof.
  intros Hl. exists (default Store.SUndefined (o !! key)). simpl. rewrite Hl.
  split; [done|]. simpl. rewrite lookup_fmap.
  destruct (o !! key); simpl; [done|by destruct n].
Qed.

(** A literal [set] on a plain object in the store, seen through
    [contents], is the literal [set] on contents. *)
Lemma prop_set_contents (pcall : fnid → value → res value) (n : nat)
    (key : string) (a : Store.sval) (l : Store.loc)
    (o : gmap string Store.sval) (h : Store.store) :
  Store.closed h → h !! l = Some (Store.Plain o) → Store.valid h a →
  Store.is_function a = false →
  ∃ l' h',
    Store.set (Store.prop call key) a (Store.SRef l) h
      = Store.Done (Store.SRef l') h' ∧
    set (prop pcall key)
      (Store.contents n h a) (Store.contents (S n) h (Store.SRef l))
      = Ok (Store.contents (S n) h' (Store.SRef l')).
Proof.
  intros Hclosed Hl Ha Hlit.
  exists (length h), (h ++ [Store.Plain (<[key := a]> o)]). split.
  - simpl. unfold mbind, Store.M_bind. rewrite Hlit. simpl. by rewrite Hl.
  - simpl. rewrite (contents_not_function n h a Hlit). simpl.
    rewrite Hl, lookup_app_r, Nat.sub_diag by done. simpl.
    do 2 f_equal. rewrite fmap_insert. rewrite contents_alloc by done.
    f_equal. apply map_fmap_ext. intros k v Hk. symmetry.
    apply contents_alloc; [done|]. by eapply (Hclosed l (Store.Plain o)).
Qed.

End StoreLaws.

(** * The definitions run on the samples *)

Import Samples.

(** ** The tests of the repository *)

Example prop_get_name :
  get (prop table "name") john = Ok (VStr "John").
Proof. reflexivity. Qed.

Example prop_set_name :
  set (prop table "name") (VStr "Jane") john =
    Ok (VObj (<["name" := VStr "Jane"]> (<["age" := VNum 30]> ∅))).
Proof. vm_compute. reflexivity. Qed.

Example prop_set_age_function :
  set (prop table "age") (VFun 0) john =
    Ok (VObj (<["name" := VStr "John"]> (<["age" := VNum 31]> ∅))).
Proof. vm_compute. reflexivity. Qed.

Example lens_lens_set_city :
  set personCityLens (VStr "LA") john_home =
    Ok (VObj (<["name" := VStr "John"]> (<["age" := VNum 30]>
      (<["address" := VObj (<["street" := VStr "123"]>
                             (<["city" := VStr "LA"]> ∅))]> ∅)))).
Proof. vm_compute. reflexivity. Qed.

Example prism_set_address :
  set addressPrism (VObj (<["city" := VStr "LA"]> ∅)) john =
    Ok (VObj (<["name" := VStr "John"]> (<["age" := VNum 30]>
      (<["address" := VObj (<["city" := VStr "LA"]> ∅)]> ∅)))).
Proof. vm_compute. reflexivity. Qed.

Example prism_lens_set_city :
  set (compose table addressPrism (prop table "city")) (VStr "LA") john_home =
    Ok (VObj (<["name" := VStr "John"]> (<["age" := VNum 30]>
      (<["address" := VObj (<["street" := VStr "123"]>
                             (<["city" := VStr "LA"]> ∅))]> ∅)))).
Proof. vm_compute. reflexivity. Qed.

Example prism_prism_get_missing :
  get (compose table addressPrism cityPrism) john = Ok VUndefined.
Proof. reflexivity. Qed.

Example prism_prism_set_function_missing :
  set (compose table addressPrism cityPrism) (VFun 0) john = Ok john.
Proof. reflexivity. Qed.

Example circle_radius :
  get (compose table circlePrism (prop table "radius")) circle5 = Ok (VNum 5) ∧
  set (compose table circlePrism (prop table "radius")) (VNum 7) circle5 =
    Ok (VObj (<["type" := VStr "circle"]> (<["radius" := VNum 7]> ∅))) ∧
  set (compose table circlePrism (prop table "radius")) (VFun 0) circle5 =
    Ok (VObj (<["type" := VStr "circle"]> (<["radius" := VNum 6]> ∅))) ∧
  get (compose table circlePrism (prop table "radius")) square10 = Ok VUndefined.
Proof. split_and!; vm_compute; reflexivity. Qed.

Example lens_iso_count :
  get (compose table (prop table "count") succIso)
    (VObj (<["count" := VNum 7]> ∅)) = Ok (VNum 8) ∧
  set (compose table (prop table "count") succIso) (VNum 10)
    (VObj (<["count" := VNum 7]> ∅)) = Ok (VObj (<["count" := VNum 9]> ∅)) ∧
  set (compose table (prop table "count") succIso) (VFun 0)
    (VObj (<["count" := VNum 7]> ∅)) = Ok (VObj (<["count" := VNum 8]> ∅)).
Proof. split_and!; vm_compute; reflexivity. Qed.

Example prism_iso_count :
  get (compose table countPrism succIso) (VObj ∅) = Ok VUndefined ∧
  get (compose table countPrism succIso) (VObj (<["count" := VNum 5]> ∅))
    = Ok (VNum 6) ∧
  set (compose table countPrism succIso) (VNum 9) (VObj ∅)
    = Ok (VObj (<["count" := VNum 8]> ∅)) ∧
  set (compose table countPrism succIso) (VFun 0)
    (VObj (<["count" := VNum 3]> ∅)) = Ok (VObj (<["count" := VNum 4]> ∅)) ∧
  set (compose table countPrism succIso) (VFun 0) (VObj ∅) = Ok (VObj ∅).
Proof. split_and!; vm_compute; reflexivity. Qed.

(** [set] of [age] with [(n) => n + 1] on the person of the store: object
    [2] is new, its [address] is the reference [0] the person holds. *)
Example store_set_age :
  Store.set (Store.prop store_table "age") (Store.SFun 0) (Store.SRef 1)
    home_store =
  Store.Done (Store.SRef 2)
    (home_store ++
       [ Store.Plain (<["name" := Store.SStr "John"]>
           (<["age" := Store.SNum 31]> (<["address" := Store.SRef 0]> ∅))) ]).
Proof. vm_compute. reflexivity. Qed.

(** ** Arrays, strings and functions as sources *)

(** The README's array example: [prop(0)] under [prop('employees')]. *)
Example array_first_employee :
  get (compose table (prop table "employees") (prop table "0")) acme
    = Ok (VStr "John") ∧
  get_prop (VArr [VStr "John"; VStr "Jane"]) "length" = Ok (VNum 2) ∧
  set (prop table "0") (VStr "Bob") (VArr [VStr "John"; VStr "Jane"])
    = Ok (VObj (<["0" := VStr "Bob"]> (<["1" := VStr "Jane"]> ∅))).
Proof. split_and!; vm_compute; reflexivity. Qed.

Example string_source :
  get_prop (VStr "ab") "length" = Ok (VNum 2) ∧
  get_prop (VStr "ab") "1" = Ok (VStr "b") ∧
  get_prop (VStr "ab") "2" = Ok VUndefined ∧
  set (prop table "name") (VStr "Jane") (VStr "ab")
    = Ok (VObj (<["0" := VStr "a"]> (<["1" := VStr "b"]>
                 (<["name" := VStr "Jane"]> ∅)))).
Proof. split_and!; vm_compute; reflexivity. Qed.

Example function_source :
  get_prop (VFun 0) "length" = Ok (VNum 1) ∧
  get_prop (VFun 0) "name" = Ok (VStr "") ∧
  set (prop table "name") (VStr "f") (VFun 0)
    = Ok (VObj (<["name" := VStr "f"]> ∅)).
Proof. split_and!; vm_compute; reflexivity. Qed.

(** C5: the code at an array source.  [Lens<string[]>().prop(0)] set to
    ['Bob'] on [['John', 'Jane']] leaves the array as it was and returns a
    new object that has the other element, but it is a plain object: the
    [length] of the array, [2], is not a property of the result. *)
Theorem prop_set_array_loses_length :
  Store.get (Store.prop store_table "length") (Store.SRef 0) team_store
    = Store.Done (Store.SNum 2) team_store ∧
  Store.set (Store.prop store_table "0") (Store.SStr "Bob") (Store.SRef 0)
      team_store
    = Store.Done (Store.SRef 1)
        (team_store ++
           [ Store.Plain (<["0" := Store.SStr "Bob"]>
                            (<["1" := Store.SStr "Jane"]> ∅)) ]) ∧
  Store.get (Store.prop store_table "length") (Store.SRef 1)
      (team_store ++
         [ Store.Plain (<["0" := Store.SStr "Bob"]>
                          (<["1" := Store.SStr "Jane"]> ∅)) ])
    = Store.Done Store.SUndefined
        (team_store ++
           [ Store.Plain (<["0" := Store.SStr "Bob"]>
                            (<["1" := Store.SStr "Jane"]> ∅)) ]).
Proof. split_and!; vm_compute; reflexivity. Qed.

(** ** Counterexamples *)

(** Prism∘Prism over a person without address (test "should handle undefined
    values in prism-prism composition"): the literal [set] returns the source,
    and no call of the outer prism's [set] with a literal does. *)
Lemma literal_set_prism_prism_is_noop :
  get addressPrism john = Ok VUndefined ∧
  set (compose table addressPrism cityPrism) (VStr "Los Angeles") john = Ok john ∧
  ∀ newA, is_function newA = false → set addressPrism newA john ≠ Ok john.
Proof.
  split_and!.
  - reflexivity.
  - reflexivity.
  - intros newA Hlit H.
    apply (f_equal (read_field "address")) in H.
    unfold addressPrism, Prism_of, set in H. rewrite Hlit in H.
    vm_compute in H. discriminate.
Qed.

(** Iso∘Prism over a source that the outer Iso maps to [undefined]: the outer
    optic has no [get], and the literal [set] does not return the source. *)
Lemma iso_prism_set_absent_not_noop :
  to boxIso (VObj ∅) = Ok VUndefined ∧
  get boxIso (VObj ∅) = Throw TypeError ∧
  set (compose table boxIso selfPrism) (VNum 5) (VObj ∅)
    = Ok (VObj (<["x" := VNum 5]> ∅)) ∧
  set (compose table boxIso selfPrism) (VNum 5) (VObj ∅) ≠ Ok (VObj ∅).
Proof.
  split_and!; try reflexivity.
  intros H. apply (f_equal (read_field "x")) in H.
  vm_compute in H. discriminate.
Qed.

(** The round trip fails for a value that is a function: [set] calls the new
    handler [VFun 2] on the old one and stores what it returns.  It fails too
    through an Iso whose conversions are not inverse on the target: Lens∘Iso
    with [flagIso] reads [1] back after [5] was set. *)
Lemma lens_get_set_fails :
  (s' ← set (prop table "onClick") (VFun 2) widget;
   get (prop table "onClick") s') = Ok VUndefined ∧
  (s' ← set (prop table "onClick") (VFun 2) widget;
   get (prop table "onClick") s') ≠ Ok (VFun 2) ∧
  (s' ← set (compose table (prop table "on") flagIso) (VNum 5) switch;
   get (compose table (prop table "on") flagIso) s') = Ok (VNum 1) ∧
  (s' ← set (compose table (prop table "on") flagIso) (VNum 5) switch;
   get (compose table (prop table "on") flagIso) s') ≠ Ok (VNum 5).
Proof.
  assert (H1 : (s' ← set (prop table "onClick") (VFun 2) widget;
                get (prop table "onClick") s') = Ok VUndefined)
    by (vm_compute; reflexivity).
  assert (H2 : (s' ← set (compose table (prop table "on") flagIso) (VNum 5)
                       switch;
                get (compose table (prop table "on") flagIso) s')
               = Ok (VNum 1))
    by (vm_compute; reflexivity).
  split_and!; [done| |done|].
  - rewrite H1. discriminate.
  - rewrite H2. discriminate.
Qed.

(** The two setters for [onClick] agree on every literal, and the normalised
    prisms differ on the updater [VFun 1], which returns a function: the
    caller's setter is handed that function, and the fuller setter calls it. *)
Lemma Prism_of_setter_sees_function :
  (∀ v p, is_function v = false → onClick_set_base v p = onClick_set_full v p) ∧
  set (Prism_of table onClick_get onClick_set_base) (VFun 1) widget
    = onClick_set_base (VFun 2) widget ∧
  set (Prism_of table onClick_get onClick_set_full) (VFun 1) widget
    = onClick_set_full (VFun 2) widget ∧
  set (Prism_of table onClick_get onClick_set_base) (VFun 1) widget
    ≠ set (Prism_of table onClick_get onClick_set_full) (VFun 1) widget.
Proof.
  split_and!.
  - intros v p Hv. unfold onClick_set_base, onClick_set_full. by rewrite Hv.
  - reflexivity.
  - reflexivity.
  - intros H. apply (f_equal (read_field "onClick")) in H.
    vm_compute in H. discriminate.
Qed.

(** ** The theorems at the samples *)

(** Prism∘Iso over [{}] (test "Prism ∘ Iso should be a Prism"): the literal is
    converted and handed to the outer prism's setter. *)
Lemma literal_set_absent_outer_witness :
  is_function (VNum 9) = false ∧
  get countPrism (VObj ∅) = Ok VUndefined ∧
  set (compose table countPrism succIso) (VNum 9) (VObj ∅) =
    (newOuterValue ← from succIso (VNum 9);
     set countPrism newOuterValue (VObj ∅)).
Proof.
  split_and!; [reflexivity..|].
  apply (literal_set_absent_outer table countPrism succIso (VObj ∅) (VNum 9));
    reflexivity.
Defined.

Lemma general_set_outer_witness :
  get addressPrism john = Ok VUndefined ∧
  set (compose table addressPrism cityPrism) (VFun 0) john = Ok john.
Proof.
  split; [reflexivity|].
  refine (proj1 (general_set_outer table addressPrism cityPrism john (VFun 0))
            _ _ _ VUndefined _);
    [discriminate|discriminate|left; reflexivity|reflexivity].
Defined.

(** The composed Lens of the tests on its types. *)
Lemma Address_data : data Address.
Proof. by intros a [o ->]. Qed.

Lemma Person_address : has_field Person Address "address".
Proof.
  split.
  - intros s (o & a & -> & Ho & Ha). exists a. simpl. by rewrite Ho.
  - intros s a _ Ha. exists (<["address" := a]> (spread s)), a.
    by rewrite lookup_insert_eq.
Qed.

Lemma Address_city : has_field Address Anything "city".
Proof.
  split.
  - intros s [o ->]. simpl. by eexists.
  - intros s a _ _. by eexists.
Qed.

Lemma personCityLens_typed : Lens_for table Person Anything personCityLens.
Proof.
  apply Lens_lens with (A := Address).
  - exact Address_data.
  - apply Lens_prop, Person_address.
  - apply Lens_prop, Address_city.
Qed.

Lemma john_home_Person : Person john_home.
Proof.
  eexists _, _. split; [reflexivity|]. split; [by vm_compute|]. by eexists.
Qed.

Lemma lens_get_set_witness :
  ∃ s', set personCityLens (VStr "Los Angeles") john_home = Ok s' ∧
        get personCityLens s' = Ok (VStr "Los Angeles").
Proof.
  apply (lens_get_set table Person Anything personCityLens john_home
           (VStr "Los Angeles")).
  - exact personCityLens_typed.
  - exact john_home_Person.
  - exact I.
  - reflexivity.
Defined.

(** [set] of [name] on the person of the store (object [1]): a new object,
    and the store as it was. *)
Lemma prop_set_frame_witness :
  ∃ l' o' h',
    Store.set (Store.prop store_table "name") (Store.SStr "Jane")
      (Store.SRef 1) home_store = Store.Done (Store.SRef l') h' ∧
    home_store !! l' = None ∧
    h' !! l' = Some (Store.Plain o') ∧
    o' !! "name" = Some (Store.SStr "Jane") ∧
    (∀ other, other ≠ "name" →
       o' !! other =
         (<["name" := Store.SStr "John"]> (<["age" := Store.SNum 30]>
           (<["address" := Store.SRef 0]> ∅)) : gmap string Store.sval)
         !! other) ∧
    (∀ l0 c0, home_store !! l0 = Some c0 → h' !! l0 = Some c0).
Proof.
  apply (prop_set_frame store_table "name" (Store.SStr "Jane") 1
           (Store.Plain _) home_store home_store (Store.SStr "Jane")).
  - reflexivity.
  - reflexivity.
  - intros l0 c0 H. exact H.
Defined.

Lemma Prism_of_normalizes_witness :
  is_function (VFun 0) = true ∧
  address_get john = Ok VUndefined ∧
  set (Prism_of table address_get address_set) (VFun 0) john = Ok john.
Proof.
  split_and!; [reflexivity..|].
  refine (proj1 (proj2 (proj2
            (Prism_of_normalizes table address_get address_set john)))
          (VFun 0) _ _); reflexivity.
Defined.

Lemma compose_prism_iso_witness :
  _tag countPrism = prism ∧ _tag succIso = iso ∧
  get countPrism (VObj ∅) = Ok VUndefined ∧
  get (compose table countPrism succIso) (VObj ∅) = Ok VUndefined ∧
  (∀ b, is_function b = true →
     set (compose table countPrism succIso) b (VObj ∅) = Ok (VObj ∅)) ∧
  (∀ b, is_function b = false →
     set (compose table countPrism succIso) b (VObj ∅) =
       newOuterValue ← from succIso b; set countPrism newOuterValue (VObj ∅)).
Proof.
  split_and!; [reflexivity..| | |];
    apply (compose_prism_iso table countPrism succIso (VObj ∅) VUndefined);
    reflexivity.
Defined.

(** An inner Lens whose [get] throws on every call is not called. *)
Lemma compose_get_absent_outer_witness :
  _tag addressPrism = prism ∧
  get addressPrism john = Ok VUndefined ∧
  get (compose table addressPrism (throwing lens)) john = Ok VUndefined.
Proof.
  split_and!; [reflexivity..|].
  apply (compose_get_absent_outer table addressPrism (throwing lens) john);
    reflexivity.
Defined.


(** With the updater [(r) => r + 1], whose result is a number, the two
    setters for [onClick] give the same normalised [set]. *)
Lemma Prism_of_setter_sees_literals_witness :
  set (Prism_of table onClick_get onClick_set_base) (VFun 0) widget =
    set (Prism_of table onClick_get onClick_set_full) (VFun 0) widget.
Proof.
  apply (Prism_of_setter_sees_literals table onClick_get
           onClick_set_base onClick_set_full (VFun 0) widget).
  - intros v p Hv. unfold onClick_set_base, onClick_set_full.
    rewrite Hv. reflexivity.
  - intros current next _ Hget Hcall.
    injection Hget as <-. injection Hcall as <-. reflexivity.
Defined.

(** * Further properties of the module *)

Section MoreLaws.

Variable call : fnid → value → res value.

Local Abbreviation compose := (compose call).
Local Abbreviation prop := (prop call).
Local Abbreviation Prism_of := (Prism_of call).
Local Abbreviation invoke := (invoke call).

(** [Lens<S>().compose] and [Prism<S>().compose] are [compose]. *)
Lemma composeForLens_eq (outer inner : optic) :
  composeForLens call outer inner = compose outer inner.
Proof. unfold composeForLens. by destruct (_tag inner). Qed.

Lemma composeForPrism_eq (outer inner : optic) :
  composeForPrism call outer inner = compose outer inner.
Proof. unfold composeForPrism. by destruct (_tag inner). Qed.

(** ** An updater and the literal it returns *)

(** For every Lens and Prism built by [prop], [Prism().of] and [compose]:
    where [get(s)] is [cur] (not [undefined], for a Prism) and the updater
    [f] returns on it a value [v] that is not a function, [set(f)(s)] is
    [set(v)(s)]. *)
Theorem set_updater_as_literal (o : optic) (f : fnid) (s cur v : value) :
  built call o →
  get o s = Ok cur →
  _tag o = lens ∨ is_undefined cur = false →
  call f cur = Ok v → is_function v = false →
  set o (VFun f) s = set o v s.
Proof. intros Ho. by apply (built_updater_literal call). Qed.

(** ** The laws of a typed Lens *)

Lemma Iso_for_built (S A : vtype) (i : optic) :
  Iso_for call S A i → built call i.
Proof. induction 1; by constructor. Qed.

Lemma Lens_for_built (S A : vtype) (l : optic) :
  Lens_for call S A l → built call l.
Proof. induction 1; constructor; eauto using Iso_for_built. Qed.

(** For every typed Lens, a function update whose result [v] is a value of
    the target type and not a function succeeds, and [get] of the result is
    [v]: [get(set(f)(s)) = f(get(s))]. *)
Theorem lens_update_round_trip (S A : vtype) (l : optic) (f : fnid)
    (s cur v : value) :
  Lens_for call S A l →
  S s → get l s = Ok cur → call f cur = Ok v →
  A v → is_function v = false →
  ∃ s', set l (VFun f) s = Ok s' ∧ get l s' = Ok v.
Proof.
  intros Hl Hs Hget Hcall Hv Hlit.
  destruct (Lens_for_law call S A l Hl) as (Htag & _ & Hset).
  rewrite (built_updater_literal call l (Lens_for_built S A l Hl) f s cur v)
    by auto.
  destruct (Hset s v Hs Hv Hlit) as (s' & ? & _ & ?). eauto.
Qed.

Lemma Lens_for_set_set (S A : vtype) (l : optic) :
  Lens_for call S A l → lens_set_set_law S A l.
Proof.
  induction 1 as [S A key Hfield
                 |S A B outer inner HA Ho IHo Hi IHi
                 |S A B outer inner HA Ho IHo Hiso
                 |S A B outer inner Hiso Hi IHi];
    intros s v1 v2 Hs Hv1 Hv2 Hl1 Hl2.
  - simpl. rewrite Hl1, Hl2. simpl. eexists. split; [done|].
    simpl. by rewrite insert_insert_eq.
  - apply Lens_for_law in Ho as (Hto & Hgeto & Hseto).
    apply Lens_for_law in Hi as (Hti & Hgeti & Hseti).
    rewrite compose_lens_lens_eq by done. simpl.
    destruct (Hgeto s Hs) as (a & Ha & HAa). rewrite Ha. simpl.
    destruct (Hseti a v1 HAa Hv1 Hl1) as (a1 & Hset1 & HAa1 & _).
    destruct (Hseti a v2 HAa Hv2 Hl2) as (a2 & Hset2 & HAa2 & _).
    destruct (IHi a v1 v2 HAa Hv1 Hv2 Hl1 Hl2) as (a1' & Hset1' & Hset12).
    assert (a1' = a1) as -> by congruence.
    destruct (Hseto s a1 Hs HAa1 (HA _ HAa1)) as (s1 & Hos1 & Hs1 & Hread).
    destruct (IHo s a1 a2 Hs HAa1 HAa2 (HA _ HAa1) (HA _ HAa2))
      as (s1' & Hos1' & Hos12).
    assert (s1' = s1) as -> by congruence.
    rewrite Hset1. simpl. rewrite Hos1. exists s1. split; [done|].
    rewrite Hread. simpl. rewrite Hset12, Hset2. simpl. exact Hos12.
  - apply Lens_for_law in Ho as (Hto & Hgeto & Hseto).
    apply Iso_for_between in Hiso as (Hti & [Hisoto Hisofrom]).
    rewrite compose_lens_iso_eq by done. simpl.
    destruct (Hgeto s Hs) as (a & Ha & HAa). rewrite Ha. simpl.
    rewrite Hl1, Hl2. simpl.
    destruct (Hisofrom v1 Hv1) as (a1 & Hfrom1 & HAa1 & _).
    destruct (Hisofrom v2 Hv2) as (a2 & Hfrom2 & HAa2 & _).
    destruct (Hseto s a1 Hs HAa1 (HA _ HAa1)) as (s1 & Hos1 & Hs1 & Hread).
    destruct (IHo s a1 a2 Hs HAa1 HAa2 (HA _ HAa1) (HA _ HAa2))
      as (s1' & Hos1' & Hos12).
    assert (s1' = s1) as -> by congruence.
    rewrite Hfrom1. simpl. rewrite Hos1. exists s1. split; [done|].
    rewrite Hread. simpl. rewrite Hfrom2. simpl. exact Hos12.
  - apply Lens_for_law in Hi as (Hti & Hgeti & Hseti).
    apply Iso_for_between in Hiso as (Hto & [Hisoto Hisofrom]).
    rewrite compose_iso_lens_eq by done. simpl.
    destruct (Hisoto s Hs) as (a & Ha & HAa). rewrite Ha. simpl.
    destruct (Hseti a v1 HAa Hv1 Hl1) as (a1 & Hset1 & HAa1 & _).
    destruct (IHi a v1 v2 HAa Hv1 Hv2 Hl1 Hl2) as (a1' & Hset1' & Hset12).
    assert (a1' = a1) as -> by congruence.
    destruct (Hisofrom a1 HAa1) as (s1 & Hfrom1 & Hs1 & Hback).
    rewrite Hset1. simpl. rewrite Hfrom1. exists s1. split; [done|].
    rewrite Hback. simpl. by rewrite Hset12.
Qed.

(** For every typed Lens, a second literal [set] overrides the first:
    [set(v2)(set(v1)(s)) = set(v2)(s)]. *)
Theorem lens_set_set (S A : vtype) (l : optic) (s v1 v2 : value) :
  Lens_for call S A l →
  S s → A v1 → A v2 → is_function v1 = false → is_function v2 = false →
  ∃ s1, set l v1 s = Ok s1 ∧ set l v2 s1 = set l v2 s.
Proof. intros Hl. by apply Lens_for_set_set. Qed.

(** ** Isos inverse in both directions *)

Lemma Iso_full_inverse (S A : vtype) (i : optic) :
  Iso_full call S A i →
  _tag i = iso ∧ iso_inverse S A (to i) (from i).
Proof.
  induction 1 as [S A to_ from_ Hiso
                 |S A B outer inner _ IHo _ IHi].
  - done.
  - destruct IHo as (Ho & [[Hto Hfrom] Hback]).
    destruct IHi as (Hi & [[Hto' Hfrom'] Hback']).
    rewrite compose_iso_iso_eq by done. split; [done|].
    split; [split|]; simpl.
    + intros s Hs. destruct (Hto s Hs) as (a & -> & Ha). simpl. eauto.
    + intros b Hb. destruct (Hfrom' b Hb) as (a & -> & Ha & Hab). simpl.
      destruct (Hfrom a Ha) as (s & -> & Hs & Hsa).
      exists s. split_and!; [done..|]. by rewrite Hsa.
    + intros s Hs. destruct (Hback s Hs) as (a & Hsa & Has).
      destruct (Hto s Hs) as (a' & Hsa' & Ha).
      assert (a' = a) as -> by congruence.
      destruct (Hback' a Ha) as (b & Hab & Hba).
      exists b. rewrite Hsa. simpl. split; [done|].
      rewrite Hba. simpl. done.
Qed.

(** The composition of two Isos that are inverse in both directions is an
    Iso inverse in both directions: on the source type [from(to(s)) = s], on
    the target type [to(from(b)) = b], and neither conversion throws. *)
Theorem iso_compose_inverse (S A B : vtype) (outer inner : optic) :
  Iso_full call S A outer → Iso_full call A B inner →
  _tag (compose outer inner) = iso ∧
  (∀ s, S s →
     ∃ b, to (compose outer inner) s = Ok b ∧ B b ∧
          from (compose outer inner) b = Ok s) ∧
  (∀ b, B b →
     ∃ s, from (compose outer inner) b = Ok s ∧ S s ∧
          to (compose outer inner) s = Ok b).
Proof.
  intros Ho Hi.
  destruct (Iso_full_inverse S B (compose outer inner))
    as (Htag & [[Hto Hfrom] Hback]); [by eapply Iso_full_iso|].
  split_and!; [done| |done].
  intros s Hs. destruct (Hback s Hs) as (b & Hsb & Hbs).
  destruct (Hto s Hs) as (b' & Hsb' & Hb).
  assert (b' = b) as -> by congruence. eauto.
Qed.

(** ** Setting the value that is there *)

Lemma Iso_full_for (S A : vtype) (i : optic) :
  Iso_full call S A i → Iso_for call S A i.
Proof.
  induction 1 as [S A to_ from_ [Hiso _]|]; [by constructor|].
  by eapply Iso_iso.
Qed.

Lemma Lens_full_for (S A : vtype) (l : optic) :
  Lens_full call S A l → Lens_for call S A l.
Proof.
  induction 1 as [S A key [Hfield _]| | |].
  - by constructor.
  - by eapply Lens_lens.
  - eapply Lens_iso; eauto using Iso_full_for.
  - eapply Iso_lens; eauto using Iso_full_for.
Qed.

Lemma Lens_full_set_get (S A : vtype) (l : optic) :
  Lens_full call S A l → lens_set_get_law S l.
Proof.
  induction 1 as [S A key [Hfield Hown]
                 |S A B outer inner HA Ho IHo Hi IHi
                 |S A B outer inner HA Ho IHo Hiso
                 |S A B outer inner Hiso Hi IHi];
    intros s b Hs Hget Hlit.
  - destruct (Hown s Hs) as (o & -> & [x Hx]). simpl in *.
    rewrite Hx in Hget. simpl in Hget. injection Hget as <-.
    rewrite Hlit. simpl. by rewrite insert_id.
  - apply Lens_full_for, Lens_for_law in Ho as (Hto & Hgeto & _).
    apply Lens_full_for, Lens_for_law in Hi as (Hti & _ & _).
    rewrite compose_lens_lens_eq in * by done. simpl in *.
    destruct (Hgeto s Hs) as (a & Ha & HAa). rewrite Ha in *. simpl in *.
    rewrite (IHi a b HAa Hget Hlit). simpl.
    apply IHo; [done..|]. by apply HA.
  - apply Lens_full_for, Lens_for_law in Ho as (Hto & Hgeto & _).
    apply Iso_full_inverse in Hiso as (Hti & [_ Hback]).
    rewrite compose_lens_iso_eq in * by done. simpl in *.
    destruct (Hgeto s Hs) as (a & Ha & HAa). rewrite Ha in *. simpl in *.
    rewrite Hlit. simpl.
    destruct (Hback a HAa) as (b' & Hab & Hba).
    assert (b' = b) as -> by congruence.
    rewrite Hba. simpl. apply IHo; [done..|]. by apply HA.
  - apply Lens_full_for, Lens_for_law in Hi as (Hti & _ & _).
    apply Iso_full_inverse in Hiso as (Hto & [[Hisoto _] Hback]).
    rewrite compose_iso_lens_eq in * by done. simpl in *.
    destruct (Hback s Hs) as (a & Ha & Has).
    destruct (Hisoto s Hs) as (a' & Ha' & HAa).
    assert (a' = a) as -> by congruence.
    rewrite Ha in *. simpl in *.
    rewrite (IHi a b HAa Hget Hlit). simpl. done.
Qed.

(** For every Lens built from own fields and from Isos inverse in both
    directions, setting the value [get] returns gives the source back:
    [set(get(s))(s) = s]. *)
Theorem lens_set_get (S A : vtype) (l : optic) (s a : value) :
  Lens_full call S A l →
  S s → get l s = Ok a → is_function a = false →
  set l a s = Ok s.
Proof. intros Hl. exact (Lens_full_set_get S A l Hl s a). Qed.

(** ** The laws of a typed Prism *)

Lemma solid_present (A : vtype) (a : value) :
  solid A → A a → is_undefined a = false.
Proof. intros HA Ha. by destruct (HA a Ha). Qed.

Lemma solid_literal (A : vtype) (a : value) :
  solid A → A a → is_function a = false.
Proof. intros HA Ha. by destruct (HA a Ha). Qed.

Lemma solid_not_undefined (A : vtype) :
  solid A → ¬ A VUndefined.
Proof. intros HA Ha. by destruct (HA _ Ha). Qed.

Lemma Prism_of_laws (S A : vtype) prism_get prism_set :
  solid A → prism_base S A prism_get prism_set →
  prism_laws S A (Prism_of prism_get prism_set).
Proof.
  intros HA [Hget Hgs Hsg]. split_and!; simpl.
  - done.
  - exact Hget.
  - intros s v cur Hs Hv _ _. rewrite (solid_literal A v) by done.
    by apply Hgs.
  - intros s cur Hs Hcur HAcur. rewrite (solid_literal A cur) by done.
    by apply Hsg.
  - intros s f _ ->. done.
Qed.

(** The closing case of [compose], on an outer optic with the laws of a
    Prism or of a Lens whose target is solid. *)
Lemma compose_general_laws (S A B : vtype) (outer inner : optic) :
  solid A → solid B →
  _tag outer ≠ iso → _tag inner ≠ iso →
  _tag outer = prism ∨ _tag inner = prism →
  (∀ s, S s → ∃ a, get outer s = Ok a ∧ (a = VUndefined ∨ A a)) →
  (∀ s v cur, S s → A v → get outer s = Ok cur → A cur →
     ∃ s', set outer v s = Ok s' ∧ S s' ∧ get outer s' = Ok v) →
  (∀ s cur, S s → get outer s = Ok cur → A cur → set outer cur s = Ok s) →
  (∀ s, A s → ∃ a, get inner s = Ok a ∧ (a = VUndefined ∨ B a)) →
  (∀ s v cur, A s → B v → get inner s = Ok cur → B cur →
     ∃ s', set inner v s = Ok s' ∧ A s' ∧ get inner s' = Ok v) →
  (∀ s cur, A s → get inner s = Ok cur → B cur → set inner cur s = Ok s) →
  (∀ s f, A s → get inner s = Ok VUndefined → set inner (VFun f) s = Ok s) →
  prism_laws S B (compose outer inner).
Proof.
  intros HA HB Ho Hi Hp Hgeto Hgso Hsgo Hgeti Hgsi Hsgi Hfni.
  rewrite compose_general_eq by done. split_and!; simpl.
  - done.
  - intros s Hs. destruct (Hgeto s Hs) as (a & -> & [->|Ha]); simpl.
    + eauto.
    + rewrite (solid_present A a) by done. by apply Hgeti.
  - intros s v cur Hs Hv Hget Hcur.
    destruct (Hgeto s Hs) as (a & Ha & [->|HAa]);
      rewrite Ha in *; simpl in *.
    + injection Hget as <-. by apply solid_not_undefined in Hcur.
    + rewrite (solid_present A a) in * by done.
      destruct (Hgsi a v cur HAa Hv Hget Hcur) as (a' & -> & HAa' & Hread).
      simpl.
      destruct (Hgso s a' a Hs HAa' Ha HAa) as (s' & -> & Hs' & Hread').
      exists s'. split_and!; [done..|]. rewrite Hread'. simpl.
      by rewrite (solid_present A a').
  - intros s cur Hs Hget Hcur.
    destruct (Hgeto s Hs) as (a & Ha & [->|HAa]);
      rewrite Ha in *; simpl in *.
    + injection Hget as <-. by apply solid_not_undefined in Hcur.
    + rewrite (solid_present A a) in * by done.
      rewrite (Hsgi a cur) by done. simpl. by apply Hsgo.
  - intros s f Hs Hget.
    destruct (Hgeto s Hs) as (a & Ha & [->|HAa]);
      rewrite Ha in *; simpl in *; [done|].
    rewrite (solid_present A a) in * by done.
    rewrite (Hfni a f) by done. simpl. by apply Hsgo.
Qed.

Lemma Prism_for_laws (S A : vtype) (p : optic) :
  Prism_for call S A p → solid A ∧ prism_laws S A p.
Proof.
  induction 1 as [S A prism_get prism_set HA Hbase
                 |S A B outer inner _ [HA IHo] _ [HB IHi]
                 |S A B outer inner HB _ [HA IHo] Hi
                 |S A B outer inner HB _ [HA IHo] Hiso
                 |S A B outer inner HA Ho _ [HB IHi]].
  - split; [done|]. by apply Prism_of_laws.
  - split; [done|]. rewrite composeForPrism_eq.
    destruct IHo as (Ho & Hgeto & Hgso & Hsgo & _).
    destruct IHi as (Hi & Hgeti & Hgsi & Hsgi & Hfni).
    apply (compose_general_laws S A B); try done; try congruence; auto.
  - split; [done|]. rewrite composeForPrism_eq.
    destruct IHo as (Ho & Hgeto & Hgso & Hsgo & _).
    pose proof (Lens_full_set_get A B inner Hi) as Hsgi.
    apply Lens_full_for, Lens_for_law in Hi as (Hi & Hgeti & Hgsi).
    apply (compose_general_laws S A B); try done; try congruence; auto.
    + intros s Hs. destruct (Hgeti s Hs) as (b & ? & ?). eauto.
    + intros s v cur Hs Hv _ _. apply Hgsi; [done..|].
      by apply (solid_literal B).
    + intros s cur Hs Hget Hcur. apply Hsgi; [done..|].
      by apply (solid_literal B).
    + intros s f Hs Hget. destruct (Hgeti s Hs) as (b & Hb & HBb).
      assert (b = VUndefined) as -> by congruence.
      by apply solid_not_undefined in HBb.
  - split; [done|]. rewrite composeForPrism_eq.
    destruct IHo as (Ho & Hgeto & Hgso & Hsgo & _).
    apply Iso_full_inverse in Hiso as (Hi & [[Hto Hfrom] Hback]).
    rewrite compose_prism_iso_eq by done. split_and!; simpl.
    + done.
    + intros s Hs. destruct (Hgeto s Hs) as (a & -> & [->|Ha]); simpl.
      * eauto.
      * rewrite (solid_present A a) by done.
        destruct (Hto a Ha) as (b & ? & ?). eauto.
    + intros s v cur Hs Hv Hget Hcur.
      destruct (Hgeto s Hs) as (a & Ha & [->|HAa]);
        rewrite Ha in *; simpl in *.
      * injection Hget as <-. by apply solid_not_undefined in Hcur.
      * rewrite (solid_literal B v) by done.
        destruct (Hfrom v Hv) as (a' & -> & HAa' & Hread). simpl.
        destruct (Hgso s a' a Hs HAa' Ha HAa) as (s' & -> & Hs' & Hread').
        exists s'. split_and!; [done..|]. rewrite Hread'. simpl.
        by rewrite (solid_present A a').
    + intros s cur Hs Hget Hcur.
      destruct (Hgeto s Hs) as (a & Ha & [->|HAa]);
        rewrite Ha in *; simpl in *.
      * injection Hget as <-. by apply solid_not_undefined in Hcur.
      * rewrite (solid_present A a) in * by done.
        rewrite (solid_literal B cur) by done.
        destruct (Hback a HAa) as (b & Hab & Hba).
        assert (b = cur) as -> by congruence.
        rewrite Hba. simpl. by apply Hsgo.
    + intros s f Hs Hget.
      destruct (Hgeto s Hs) as (a & Ha & [->|HAa]);
        rewrite Ha in *; simpl in *; [done|].
      rewrite (solid_present A a) in * by done.
      destruct (Hto a HAa) as (b & Hb & HBb).
      assert (b = VUndefined) as -> by congruence.
      by apply solid_not_undefined in HBb.
  - split; [done|]. rewrite composeForLens_eq.
    destruct IHi as (Hi & Hgeti & Hgsi & Hsgi & Hfni).
    pose proof (Lens_full_set_get S A outer Ho) as Hsgo.
    apply Lens_full_for, Lens_for_law in Ho as (Ho & Hgeto & Hgso).
    apply (compose_general_laws S A B); try done; try congruence; auto.
    + intros s Hs. destruct (Hgeto s Hs) as (a & ? & ?). eauto.
    + intros s v cur Hs Hv _ _. apply Hgso; [done..|].
      by apply (solid_literal A).
    + intros s cur Hs Hget Hcur. apply Hsgo; [done..|].
      by apply (solid_literal A).
Qed.

(** On a source of its type, [get] of a typed Prism does not throw: it
    returns [undefined] or a value of the target type, whichever branches of
    the chain are missing. *)
Theorem prism_get_total (S A : vtype) (p : optic) (s : value) :
  Prism_for call S A p →
  S s →
  ∃ a, get p s = Ok a ∧ (a = VUndefined ∨ A a).
Proof.
  intros Hp Hs.
  destruct (Prism_for_laws S A p Hp) as (_ & _ & Hget & _). auto.
Qed.



(** For every typed Prism whose focus is present on [s], a literal [set]
    succeeds and [get] of the result is the literal. *)
Theorem prism_get_set (S A : vtype) (p : optic) (s v cur : value) :
  Prism_for call S A p →
  S s → A v → get p s = Ok cur → A cur →
  ∃ s', set p v s = Ok s' ∧ get p s' = Ok v.
Proof.
  intros Hp Hs Hv Hget Hcur.
  destruct (Prism_for_laws S A p Hp) as (_ & _ & _ & Hgs & _ & _).
  destruct (Hgs s v cur Hs Hv Hget Hcur) as (s' & ? & _ & ?). eauto.
Qed.

(** ** Bracketing of compositions *)

(** Composition of three Lenses is associative: the two bracketings are
    Lenses with the same [get] and the same [set] on every source and every
    argument, exceptions included. *)
Theorem lens_compose_assoc (a b c : optic) (s : value) :
  _tag a = lens → _tag b = lens → _tag c = lens →
  _tag (composeForLens call (composeForLens call a b) c) = lens ∧
  _tag (composeForLens call a (composeForLens call b c)) = lens ∧
  get (composeForLens call (composeForLens call a b) c) s =
    get (composeForLens call a (composeForLens call b c)) s ∧
  ∀ v, set (composeForLens call (composeForLens call a b) c) v s =
         set (composeForLens call a (composeForLens call b c)) v s.
Proof.
  intros Ha Hb Hc. rewrite !composeForLens_eq.
  destruct a as [ga sa| |], b as [gb sb| |], c as [gc sc| |]; try done.
  simpl. split_and!; [done..| |].
  - by destruct (ga s).
  - intros v. destruct (ga s) as [av|]; simpl; [|done].
    destruct (gb av) as [bv|]; simpl; [|done].
    by destruct (sc v bv).
Qed.

(** With a Prism in the middle, [get] does not depend on the bracketing. *)
Theorem prism_get_assoc (a b c : optic) (s : value) :
  _tag a ≠ iso → _tag b = prism → _tag c ≠ iso →
  get (compose (compose a b) c) s = get (compose a (compose b c)) s.
Proof.
  intros Ha Hb Hc.
  destruct a as [ga sa|ga sa|], b as [|gb sb|], c as [gc sc|gc sc|];
    try done; simpl;
    (destruct (ga s) as [av|]; simpl; [|done]);
    by destruct (is_undefined av).
Qed.

(** With a Prism in the middle, [set] depends on the bracketing in one case
    only.  Where the outer value [av] is absent both bracketings return the
    source; where [av] and the middle value are present they agree; where
    [av] is present and the middle value absent, [(a∘b)∘c] returns the
    source and [a∘(b∘c)] returns [a.set(av)(s)]. *)
Theorem prism_set_bracketing (a b c : optic) (s av v : value) :
  _tag a ≠ iso → _tag b = prism → _tag c ≠ iso →
  get a s = Ok av →
  (is_undefined av = true →
     set (compose (compose a b) c) v s = Ok s ∧
     set (compose a (compose b c)) v s = Ok s) ∧
  (is_undefined av = false → ∀ bv, get b av = Ok bv →
     (is_undefined bv = false →
        set (compose (compose a b) c) v s =
          set (compose a (compose b c)) v s) ∧
     (is_undefined bv = true →
        set (compose (compose a b) c) v s = Ok s ∧
        set (compose a (compose b c)) v s = set a av s)).
Proof.
  intros Ha Hb Hc Hget.
  destruct a as [ga sa|ga sa|], b as [|gb sb|], c as [gc sc|gc sc|];
    try done; simpl in *; rewrite Hget; simpl;
    (split; [by intros ->|]);
    intros -> bv ->; simpl;
    (split; intros ->; simpl; [by destruct (sc v bv)|done]).
Qed.

(** ** The earlier revision *)

(** On Lenses and Prisms the current [compose] is the [compose] of the
    earlier revision: the cases added for Isos changed nothing there. *)
Theorem previous_compose_agrees (outer inner : optic) :
  _tag outer ≠ iso → _tag inner ≠ iso →
  Previous.compose outer inner = compose outer inner.
Proof. intros Ho Hi. by destruct outer, inner. Qed.

(** ** [prop] on any source *)

(** A literal [set] of a [prop] Lens succeeds on every source, [undefined],
    [null] and primitives included: the result is an object whose [key] is
    the literal and whose other properties are the own properties of the
    source.  On [undefined] and [null], [get] and a function [set] throw a
    TypeError. *)
Theorem prop_any_source (key : string) (s a : value) :
  is_function a = false →
  (∃ o, set (prop key) a s = Ok (VObj o) ∧
        o !! key = Some a ∧
        (∀ other, other ≠ key → o !! other = spread s !! other) ∧
        get (prop key) (VObj o) = Ok a) ∧
  (s = VUndefined ∨ s = VNull →
     get (prop key) s = Throw TypeError ∧
     (∀ f, set (prop key) (VFun f) s = Throw TypeError) ∧
     set (prop key) a s = Ok (VObj {[key := a]})).
Proof.
  intros Hlit. split.
  - exists (<[key := a]> (spread s)). simpl. rewrite Hlit. simpl.
    split_and!; [done|by rewrite lookup_insert_eq| |].
    + intros other Hne. by rewrite lookup_insert_ne.
    + by rewrite lookup_insert_eq.
  - intros [->| ->]; simpl; rewrite Hlit; simpl;
      by rewrite insert_empty.
Qed.

(** Literal [set]s of two [prop] Lenses on different keys commute, and a
    [set] on one key leaves [get] of the other as it was on an object. *)
Theorem prop_sets_commute (k1 k2 : string) (v1 v2 s : value) :
  k1 ≠ k2 → is_function v1 = false → is_function v2 = false →
  (s1 ← set (prop k1) v1 s; set (prop k2) v2 s1) =
    (s2 ← set (prop k2) v2 s; set (prop k1) v1 s2) ∧
  (∀ o, s = VObj o →
     (s1 ← set (prop k1) v1 s; get (prop k2) s1) = get (prop k2) s).
Proof.
  intros Hne Hl1 Hl2. simpl. rewrite Hl1, Hl2. simpl. split.
  - by rewrite insert_insert_ne.
  - intros o ->. simpl. by rewrite lookup_insert_ne.
Qed.

End MoreLaws.

(** ** The further properties at the samples *)

Import Types.

Lemma Text_solid : solid Text.
Proof. by intros a [t ->]. Qed.

Lemma AddressC_data : data AddressC.
Proof. by intros a (o & t & -> & _). Qed.

Lemma AddressOpt_solid : solid AddressOpt.
Proof. by intros a (o & -> & _). Qed.

Lemma PersonC_address : has_own_field PersonC AddressC "address".
Proof.
  split; [split|].
  - intros s (o & a & -> & Ho & Ha). exists a. simpl. by rewrite Ho.
  - intros s a _ Ha. exists (<["address" := a]> (spread s)), a.
    by rewrite lookup_insert_eq.
  - intros s (o & a & -> & Ho & _). exists o. by rewrite Ho.
Qed.

Lemma AddressC_city : has_own_field AddressC Text "city".
Proof.
  split; [split|].
  - intros s (o & t & -> & Ho). exists (VStr t). simpl. rewrite Ho.
    split; [done|]. by exists t.
  - intros s a _ [t ->]. exists (<["city" := VStr t]> (spread s)), t.
    by rewrite lookup_insert_eq.
  - intros s (o & t & -> & Ho). exists o. by rewrite Ho.
Qed.

Lemma personCityLens_full : Lens_full table PersonC Text personCityLens.
Proof.
  apply Lens_full_lens with (A := AddressC).
  - exact AddressC_data.
  - apply Lens_full_prop, PersonC_address.
  - apply Lens_full_prop, AddressC_city.
Qed.

Lemma john_home_PersonC : PersonC john_home.
Proof.
  eexists _, _. split; [reflexivity|]. split; [by vm_compute|].
  eexists _, _. split; [reflexivity|]. by vm_compute.
Qed.

Lemma city_base : prism_base AddressOpt Text city_get city_set.
Proof.
  split.
  - intros s (o & -> & [Ho|[t Ho]]); unfold city_get; simpl; rewrite Ho;
      simpl; eexists; split; eauto. right. by exists t.
  - intros s v (o & -> & _) [t ->]. unfold city_set, city_get. simpl.
    eexists. split_and!; [done| |by simpl; rewrite lookup_insert_eq].
    eexists. split; [done|]. right. exists t. by rewrite lookup_insert_eq.
  - intros s cur (o & -> & _) Hget [t ->]. unfold city_set, city_get in *.
    simpl in *. destruct (o !! "city") as [x|] eqn:Ho; simpl in Hget; [|done].
    injection Hget as ->. by rewrite insert_id.
Qed.

Lemma address_base : prism_base PersonOpt AddressOpt address_get address_set.
Proof.
  split.
  - intros s (o & -> & [Ho|(a & Ho & Ha)]); unfold address_get; simpl;
      rewrite Ho; simpl; eexists; split; eauto.
  - intros s v (o & -> & _) Hv. unfold address_set, address_get. simpl.
    eexists. split_and!; [done| |by simpl; rewrite lookup_insert_eq].
    eexists. split; [done|]. right. exists v. by rewrite lookup_insert_eq.
  - intros s cur (o & -> & _) Hget (oc & -> & _).
    unfold address_set, address_get in *. simpl in *.
    destruct (o !! "address") as [x|] eqn:Ho; simpl in Hget; [|done].
    injection Hget as ->. by rewrite insert_id.
Qed.

Lemma personCityPrism_typed : Prism_for table PersonOpt Text personCityPrism.
Proof.
  apply Prism_prism with (A := AddressOpt).
  - apply Prism_base; [exact AddressOpt_solid|exact address_base].
  - apply Prism_base; [exact Text_solid|exact city_base].
Qed.

Lemma john_PersonOpt : PersonOpt john.
Proof. eexists. split; [reflexivity|]. left. by vm_compute. Qed.

Lemma john_home_PersonOpt : PersonOpt john_home.
Proof.
  eexists. split; [reflexivity|]. right. eexists. split; [by vm_compute|].
  eexists. split; [reflexivity|]. right. eexists. by vm_compute.
Qed.

Lemma succ_inverse : iso_inverse Num Num succ_to succ_from.
Proof.
  split; [split|].
  - intros s [n ->]. simpl. eexists. split; [done|]. by eexists.
  - intros a [n ->]. simpl. eexists. split_and!; [done|by eexists|].
    simpl. do 2 f_equal. lia.
  - intros s [n ->]. simpl. eexists. split; [done|]. simpl.
    do 2 f_equal. lia.
Qed.

Lemma Address_age : has_field Address Anything "age".
Proof.
  split.
  - intros s [o ->]. simpl. by eexists.
  - intros s a _ _. by eexists.
Qed.

Lemma circleRadius_built : built table circleRadius.
Proof.
  unfold circleRadius. rewrite composeForPrism_eq.
  apply built_compose; [apply built_of|apply built_prop].
Qed.

(** The updater [(r) => r + 1] on a circle of radius [5] is the literal [6]. *)
Lemma set_updater_as_literal_witness :
  get circleRadius circle5 = Ok (VNum 5) ∧
  table 0 (VNum 5) = Ok (VNum 6) ∧
  set circleRadius (VFun 0) circle5 = set circleRadius (VNum 6) circle5.
Proof.
  split_and!; [reflexivity..|].
  apply (set_updater_as_literal table circleRadius 0 circle5
           (VNum 5) (VNum 6)).
  - exact circleRadius_built.
  - reflexivity.
  - right. reflexivity.
  - reflexivity.
  - reflexivity.
Defined.

Lemma lens_update_round_trip_witness :
  ∃ s', set (prop table "age") (VFun 0) john = Ok s' ∧
        get (prop table "age") s' = Ok (VNum 31).
Proof.
  apply (lens_update_round_trip table Address Anything (prop table "age") 0
           john (VNum 30) (VNum 31)).
  - apply Lens_prop, Address_age.
  - by eexists.
  - reflexivity.
  - reflexivity.
  - exact I.
  - reflexivity.
Defined.

Lemma lens_set_set_witness :
  ∃ s1, set personCityLens (VStr "LA") john_home = Ok s1 ∧
        set personCityLens (VStr "SF") s1 =
          set personCityLens (VStr "SF") john_home.
Proof.
  apply (lens_set_set table Person Anything personCityLens john_home
           (VStr "LA") (VStr "SF")).
  - exact personCityLens_typed.
  - exact john_home_Person.
  - exact I.
  - exact I.
  - reflexivity.
  - reflexivity.
Defined.

Lemma lens_set_get_witness :
  get personCityLens john_home = Ok (VStr "New York") ∧
  set personCityLens (VStr "New York") john_home = Ok john_home.
Proof.
  split; [reflexivity|].
  apply (lens_set_get table PersonC Text personCityLens john_home
           (VStr "New York")).
  - exact personCityLens_full.
  - exact john_home_PersonC.
  - reflexivity.
  - reflexivity.
Defined.

Lemma iso_compose_inverse_witness :
  _tag (compose table succIso succIso) = iso ∧
  (∀ s, Num s →
     ∃ b, to (compose table succIso succIso) s = Ok b ∧ Num b ∧
          from (compose table succIso succIso) b = Ok s) ∧
  (∀ b, Num b →
     ∃ s, from (compose table succIso succIso) b = Ok s ∧ Num s ∧
          to (compose table succIso succIso) s = Ok b).
Proof.
  apply (iso_compose_inverse table Num Num Num succIso succIso);
    apply Iso_full_make, succ_inverse.
Defined.



Lemma prism_get_set_witness :
  ∃ s', set personCityPrism (VStr "LA") john_home = Ok s' ∧
        get personCityPrism s' = Ok (VStr "LA").
Proof.
  apply (prism_get_set table PersonOpt Text personCityPrism john_home
           (VStr "LA") (VStr "New York")).
  - exact personCityPrism_typed.
  - exact john_home_PersonOpt.
  - by eexists.
  - reflexivity.
  - by eexists.
Defined.

Lemma lens_compose_assoc_witness :
  get (composeForLens table
         (composeForLens table (prop table "hq") (prop table "address"))
         (prop table "city"))
      (VObj (<["hq" := john_home]> ∅)) =
  get (composeForLens table (prop table "hq")
         (composeForLens table (prop table "address") (prop table "city")))
      (VObj (<["hq" := john_home]> ∅)).
Proof.
  apply (lens_compose_assoc table (prop table "hq") (prop table "address")
           (prop table "city") (VObj (<["hq" := john_home]> ∅)));
    reflexivity.
Defined.

Lemma prism_get_assoc_witness :
  get (compose table (compose table addressPrism cityPrism) selfPrism)
      john_home =
  get (compose table addressPrism (compose table cityPrism selfPrism))
      john_home.
Proof.
  apply (prism_get_assoc table addressPrism cityPrism selfPrism john_home);
    (discriminate || reflexivity).
Defined.

(** An address without city: [(a∘b)∘c] leaves the person alone. *)
Lemma prism_set_bracketing_witness :
  get addressPrism (VObj (<["address" := VObj ∅]> ∅)) = Ok (VObj ∅) ∧
  get cityPrism (VObj ∅) = Ok VUndefined ∧
  set (compose table (compose table addressPrism cityPrism) selfPrism)
      (VStr "LA") (VObj (<["address" := VObj ∅]> ∅))
    = Ok (VObj (<["address" := VObj ∅]> ∅)) ∧
  set (compose table addressPrism (compose table cityPrism selfPrism))
      (VStr "LA") (VObj (<["address" := VObj ∅]> ∅))
    = set addressPrism (VObj ∅) (VObj (<["address" := VObj ∅]> ∅)).
Proof.
  split_and!; [reflexivity..| |];
    refine (_ (proj2 (proj2 (prism_set_bracketing table addressPrism cityPrism
                        selfPrism (VObj (<["address" := VObj ∅]> ∅))
                        (VObj ∅) (VStr "LA") _ eq_refl _ eq_refl)
                      eq_refl VUndefined eq_refl) eq_refl));
    try discriminate; intros [H1 H2]; [exact H1|exact H2].
Defined.

Lemma previous_compose_agrees_witness :
  Previous.compose addressPrism cityPrism =
    compose table addressPrism cityPrism.
Proof.
  apply (previous_compose_agrees table addressPrism cityPrism); discriminate.
Defined.

Lemma prop_any_source_witness :
  set (prop table "name") (VStr "Jane") VUndefined
    = Ok (VObj {["name" := VStr "Jane"]}) ∧
  get (prop table "name") VUndefined = Throw TypeError.
Proof.
  destruct (proj2 (prop_any_source table "name" VUndefined (VStr "Jane")
                     eq_refl) (or_introl eq_refl)) as (Hget & _ & Hset).
  split; [exact Hset|exact Hget].
Defined.

Lemma prop_sets_commute_witness :
  (s1 ← set (prop table "name") (VStr "Jane") john;
   set (prop table "age") (VNum 31) s1) =
  (s2 ← set (prop table "age") (VNum 31) john;
   set (prop table "name") (VStr "Jane") s2).
Proof.
  apply (prop_sets_commute table "name" "age" (VStr "Jane") (VNum 31) john);
    (discriminate || reflexivity).
Defined.

Lemma prism_get_total_witness :
  ∃ a, get personCityPrism john = Ok a ∧ (a = VUndefined ∨ Text a).
Proof.
  apply (prism_get_total table PersonOpt Text personCityPrism john).
  - exact personCityPrism_typed.
  - exact john_PersonOpt.
Defined.
